(** * Keyboard navigation: the line cursor and the speaker

    A shallow embedding of [demos/keyboard_nav/line_cursor.js]
    (Blockly.LineCursor) and of [core/keyboard_nav/speaker.js]
    (Blockly.Speaker.prototype.nodeToText_), and the properties of the
    navigation and of the announcements proved about them.

    Layout: the data model, the AST node interface the cursor consumes, the
    cursor, the speaker, ordered trees as an instance of the interface, a
    small workspace, the traversal as the specification describes it,
    calls in a row, nodes linked in a cycle, the element the speaker
    writes to and the notch of the block rendering constants; then the
    lemmas and theorems. *)

From Stdlib Require Import List String ZArith Arith Bool Lia.
Import ListNotations.

Set Warnings "-register-all".

(* ================================================================== *)
(** * Outcomes of a computation *)

(** The recursive functions of the cursor recurse on what the node methods
    return, not on a structure: on a cyclic graph of nodes they do not return.
    They are embedded with a recursion budget; [OutOfFuel] stands for a call
    that has not returned within the budget. *)
Inductive run (A : Type) : Type :=
| Done (a : A)
| OutOfFuel.
Arguments Done {A} a.
Arguments OutOfFuel {A}.

Definition run_bind {A B : Type} (m : run A) (k : A -> run B) : run B :=
  match m with
  | Done a => k a
  | OutOfFuel => OutOfFuel
  end.

(** What a JavaScript call ends in: a value, or a thrown TypeError. *)
Inductive JsError : Type :=
| NullDeref      (* a property read or method call on null *)
| NotAFunction.  (* a call of a method the object does not have *)

Inductive outcome (A : Type) : Type :=
| Ok (a : A)
| Throw (e : JsError).
Arguments Ok {A} a.
Arguments Throw {A} e.

Definition outcome_bind {A B : Type} (m : outcome A) (k : A -> outcome B)
  : outcome B :=
  match m with
  | Ok a => k a
  | Throw e => Throw e
  end.

Declare Scope run_scope.
Declare Scope outcome_scope.
Delimit Scope run_scope with run.
Delimit Scope outcome_scope with outcome.
Notation "x <- m ;; k" := (run_bind m (fun x => k))
  (at level 61, m at next level, right associativity) : run_scope.
Notation "x <- m ;; k" := (outcome_bind m (fun x => k))
  (at level 61, m at next level, right associativity) : outcome_scope.

(** [x.m()] where [x] may be null. *)
Definition deref {A : Type} (x : option A) : outcome A :=
  match x with
  | Some a => Ok a
  | None => Throw NullDeref
  end.

(* ================================================================== *)
(** * Data model: what an AST node wraps *)

(** A connection; [conn_type] is its numeric kind (Blockly.INPUT_VALUE,
    Blockly.NEXT_STATEMENT, ...), [conn_text] what its toString() returns. *)
Record Connection : Type := mkConnection {
  conn_type : Z;
  conn_text : string
}.

(** A block: its kind name ([type]), its output connection (null for a
    statement block), the block that surrounds it (getSurroundParent(), null
    at the top level) and what toString() returns. *)
Inductive Block : Type :=
| mkBlock (type : string) (outputConnection : option Connection)
          (surroundParent : option Block) (text : string).

Definition block_type (b : Block) : string :=
  match b with mkBlock ty _ _ _ => ty end.
Definition outputConnection (b : Block) : option Connection :=
  match b with mkBlock _ oc _ _ => oc end.
Definition getSurroundParent (b : Block) : option Block :=
  match b with mkBlock _ _ sp _ => sp end.
Definition block_toString (b : Block) : string :=
  match b with mkBlock _ _ _ s => s end.

(** A field: what getDisplayText_() and toString() return. *)
Record Field : Type := mkField {
  getDisplayText_ : string;
  field_text : string
}.

(** A workspace coordinate. *)
Record Coordinate : Type := mkCoordinate {
  coord_x : Z;
  coord_y : Z;
  coord_text : string
}.

(** The location of a node: a block, a connection, a field or a workspace
    coordinate. *)
Inductive Location : Type :=
| LocBlock (b : Block)
| LocConnection (c : Connection)
| LocField (f : Field)
| LocCoordinate (wc : Coordinate).

(** The value of [location.type]: a kind name for a block, a number for a
    connection, undefined for a field or a coordinate. *)
Inductive LocType : Type :=
| TypeName (s : string)
| TypeNumber (k : Z)
| TypeUndefined.

Definition loc_type (l : Location) : LocType :=
  match l with
  | LocBlock b => TypeName (block_type b)
  | LocConnection c => TypeNumber (conn_type c)
  | LocField _ => TypeUndefined
  | LocCoordinate _ => TypeUndefined
  end.

(** [location.type == 'name']: a number or undefined never equals a kind
    name that is not numeric, such as 'controls_if'. *)
Definition type_is_name (t : LocType) (name : string) : bool :=
  match t with
  | TypeName s => String.eqb s name
  | _ => false
  end.

(** [location.type == k] for a numeric connection kind [k]. Kind names of
    blocks are identifiers, not numerals, so a kind name never equals a
    number. *)
Definition type_is_number (t : LocType) (k : Z) : bool :=
  match t with
  | TypeNumber k' => Z.eqb k' k
  | _ => false
  end.

(** [location.outputConnection]: only a block has the property; [None] is
    undefined, [Some None] is null. *)
Definition loc_outputConnection (l : Location) : option (option Connection) :=
  match l with
  | LocBlock b => Some (outputConnection b)
  | _ => None
  end.

(** [location.outputConnection === null] *)
Definition outputConnection_is_null (l : Location) : bool :=
  match loc_outputConnection l with
  | Some None => true
  | _ => false
  end.

(** [location.toString()] *)
Definition loc_toString (l : Location) : string :=
  match l with
  | LocBlock b => block_toString b
  | LocConnection c => conn_text c
  | LocField f => field_text f
  | LocCoordinate wc => coord_text wc
  end.

(** [location.getDisplayText_()]: only a field has the method. *)
Definition loc_getDisplayText_ (l : Location) : outcome string :=
  match l with
  | LocField f => Ok (getDisplayText_ f)
  | _ => Throw NotAFunction
  end.

(* ================================================================== *)
(** * The AST node interface *)

Module ASTNode.

(** Blockly.ASTNode.types *)
Inductive types : Type :=
| BLOCK | FIELD | OUTPUT | INPUT_VALUE | NEXT_STATEMENT | PREVIOUS
| WORKSPACE | STACK.

Definition types_eqb (a b : types) : bool :=
  match a, b with
  | BLOCK, BLOCK | FIELD, FIELD | OUTPUT, OUTPUT
  | INPUT_VALUE, INPUT_VALUE | NEXT_STATEMENT, NEXT_STATEMENT
  | PREVIOUS, PREVIOUS | WORKSPACE, WORKSPACE | STACK, STACK => true
  | _, _ => false
  end.

(** Modelled from the spec: the node class itself (core/keyboard_nav/
    ast_node.js) is not part of the sources; the cursor and the speaker
    use these seven methods of it. [next], [prev], [in_] and [out] return
    another node or null. *)
Class Ops (node : Type) : Type := {
  next : node -> option node;
  prev : node -> option node;
  in_ : node -> option node;
  out : node -> option node;
  getType : node -> types;
  getLocation : node -> Location;
  getSourceBlock : node -> option Block
}.

End ASTNode.

(* ================================================================== *)
(** * Blockly.LineCursor *)

Module LineCursor.
Import ASTNode.

Section WithNodes.
Context {node : Type} `{ASTNode.Ops node}.

(** Modelled from the spec: Blockly.Cursor, the superclass (not part of
    the sources), holds the current node, read by getCurNode() and written
    by setCurNode(). *)
Record Cursor : Type := mkCursor { curNode : option node }.

Definition getCurNode (c : Cursor) : option node := curNode c.
Definition setCurNode (c : Cursor) (n : node) : Cursor := mkCursor (Some n).

(** validNode_ *)
Definition validNode_ (n : option node) : bool :=
  match n with
  | None => false
  | Some n =>
      let isValid := false in
      let location := getLocation n in
      let type := getType n in
      if types_eqb type BLOCK then
        if outputConnection_is_null location then true else isValid
      else isValid
  end.

(** validInNode_ *)
Definition validInNode_ (n : option node) : bool :=
  match n with
  | None => false
  | Some n =>
      let isValid := false in
      let location := getLocation n in
      let type := getType n in
      if types_eqb type FIELD then true else isValid
  end.

(** findSiblingOrParent_ *)
Fixpoint findSiblingOrParent_ (fuel : nat) (n : option node)
  : run (option node) :=
  match fuel with
  | O => OutOfFuel
  | S fuel' =>
      match n with
      | None => Done None
      | Some n =>
          match ASTNode.next n with
          | Some nextNode => Done (Some nextNode)
          | None => findSiblingOrParent_ fuel' (ASTNode.out n)
          end
      end
  end.

(** [node.in() || node.next()] *)
Definition in_or_next (n : node) : option node :=
  match ASTNode.in_ n with
  | Some m => Some m
  | None => ASTNode.next n
  end.

(** getNextNode_ *)
Fixpoint getNextNode_ (fuel : nat) (n : option node)
         (isValid : option node -> bool) : run (option node) :=
  match fuel with
  | O => OutOfFuel
  | S fuel' =>
      match n with
      | None => Done None
      | Some n =>
          let newNode := in_or_next n in
          if isValid newNode then Done newNode
          else
            match newNode with
            | Some _ => getNextNode_ fuel' newNode isValid
            | None =>
                (siblingOrParent <-
                   findSiblingOrParent_ fuel' (ASTNode.out n) ;;
                 if isValid siblingOrParent then Done siblingOrParent
                 else
                   match siblingOrParent with
                   | Some _ => getNextNode_ fuel' siblingOrParent isValid
                   | None => Done None
                   end)%run
            end
      end
  end.

(** The while loop of getRightMostChild_:
    [while (newNode.next()) newNode = newNode.next();] *)
Fixpoint lastSibling (fuel : nat) (newNode : node) : run node :=
  match fuel with
  | O => OutOfFuel
  | S fuel' =>
      match ASTNode.next newNode with
      | Some n' => lastSibling fuel' n'
      | None => Done newNode
      end
  end.

(** getRightMostChild_ *)
Fixpoint getRightMostChild_ (fuel : nat) (n : node) : run node :=
  match fuel with
  | O => OutOfFuel
  | S fuel' =>
      match ASTNode.in_ n with
      | None => Done n
      | Some newNode =>
          (newNode <- lastSibling fuel' newNode ;;
           getRightMostChild_ fuel' newNode)%run
      end
  end.

(** getPreviousNode_ *)
Fixpoint getPreviousNode_ (fuel : nat) (n : option node)
         (isValid : option node -> bool) : run (option node) :=
  match fuel with
  | O => OutOfFuel
  | S fuel' =>
      match n with
      | None => Done None
      | Some n =>
          (newNode <-
             match ASTNode.prev n with
             | Some p => (r <- getRightMostChild_ fuel' p ;; Done (Some r))
             | None => Done (ASTNode.out n)
             end ;;
           if isValid newNode then Done newNode
           else
             match newNode with
             | Some _ => getPreviousNode_ fuel' newNode isValid
             | None => Done None
             end)%run
      end
  end.

(** The common end of the four operations:
    [if (newNode) this.setCurNode(newNode); return newNode;] *)
Definition moveTo (c : Cursor) (newNode : option node)
  : option node * Cursor :=
  match newNode with
  | Some n => (newNode, setCurNode c n)
  | None => (newNode, c)
  end.

(** next *)
Definition next (fuel : nat) (c : Cursor) : run (option node * Cursor) :=
  match getCurNode c with
  | None => Done (None, c)
  | Some cur =>
      (newNode <- getNextNode_ fuel (Some cur) validNode_ ;;
       Done (moveTo c newNode))%run
  end.

(** in *)
Definition in_ (fuel : nat) (c : Cursor) : run (option node * Cursor) :=
  match getCurNode c with
  | None => Done (None, c)
  | Some cur =>
      (newNode <- getNextNode_ fuel (Some cur) validInNode_ ;;
       Done (moveTo c newNode))%run
  end.

(** prev *)
Definition prev (fuel : nat) (c : Cursor) : run (option node * Cursor) :=
  match getCurNode c with
  | None => Done (None, c)
  | Some cur =>
      (newNode <- getPreviousNode_ fuel (Some cur) validNode_ ;;
       Done (moveTo c newNode))%run
  end.

(** out *)
Definition out (fuel : nat) (c : Cursor) : run (option node * Cursor) :=
  match getCurNode c with
  | None => Done (None, c)
  | Some cur =>
      (newNode <- getPreviousNode_ fuel (Some cur) validInNode_ ;;
       Done (moveTo c newNode))%run
  end.

End WithNodes.
End LineCursor.

(* ================================================================== *)
(** * The four operations, and where each may land *)

Module Navigation.
Import ASTNode.

(** The navigation operations of the cursor. *)
Inductive operation : Type :=
| OpNext | OpPrev | OpIn | OpOut.

Section WithNodes.
Context {node : Type} `{ASTNode.Ops node}.

(** One navigation call. *)
Definition perform (op : operation) (fuel : nat)
  (c : LineCursor.Cursor) : run (option node * LineCursor.Cursor) :=
  match op with
  | OpNext => LineCursor.next fuel c
  | OpPrev => LineCursor.prev fuel c
  | OpIn => LineCursor.in_ fuel c
  | OpOut => LineCursor.out fuel c
  end.

(** The predicate each operation passes to its walk. *)
Definition accepts (op : operation) : option node -> bool :=
  match op with
  | OpNext | OpPrev => LineCursor.validNode_
  | OpIn | OpOut => LineCursor.validInNode_
  end.

(** A statement block: a node of type BLOCK whose location has a null
    output connection. *)
Definition statement_block (n : node) : Prop :=
  getType n = BLOCK /\ loc_outputConnection (getLocation n) = Some None.

(** A field node. *)
Definition field_node (n : node) : Prop := getType n = FIELD.

(** The validity predicate of an operation, as a proposition on nodes. *)
Definition destination (op : operation) (n : node) : Prop :=
  match op with
  | OpNext | OpPrev => statement_block n
  | OpIn | OpOut => field_node n
  end.

End WithNodes.
End Navigation.

(* ================================================================== *)
(** * Blockly.Speaker *)

Module Speaker.
Import ASTNode.
#[local] Open Scope string_scope.

(** A DOM element, as far as the speaker touches it: its attributes. *)
Definition Element : Type := list (string * string).

(** [element.setAttribute(name, value)] *)
Definition setAttribute (e : Element) (name value : string) : Element :=
  (name, value) :: filter (fun kv => negb (String.eqb (fst kv) name)) e.

(** Truthiness of an object reference that may be null. *)
Definition truthy {A : Type} (x : option A) : bool :=
  match x with
  | Some _ => true
  | None => false
  end.

Section WithNodes.
Context {node : Type} `{ASTNode.Ops node}.

(** Blockly.INPUT_VALUE and Blockly.NEXT_STATEMENT, the numeric kinds of
    connections, are constants of core/constants.js, which is not part of
    the sources. *)
Variables Blockly_INPUT_VALUE Blockly_NEXT_STATEMENT : Z.

(** nodeToText_ *)
Definition nodeToText_ (oldNode : option node) (curNode : node)
  : outcome string :=
  let location := getLocation curNode in
  let text := EmptyString in
  (if types_eqb (getType curNode) BLOCK then
     if type_is_name (loc_type location) "controls_if" then
       Ok (text ++ "if 6 = 5")
     else
       text <-
         (sb <- deref (getSourceBlock curNode) ;;
          if truthy (getSurroundParent sb) then
            Ok (text ++ "inside if. ")
          else
            match oldNode with
            | Some old =>
                osb <- deref (getSourceBlock old) ;;
                if truthy (getSurroundParent osb) then
                  Ok (text ++ "outside if. ")
                else Ok text
            | None => Ok text
            end) ;;
       Ok (text ++ loc_toString (getLocation curNode))
   else if types_eqb (getType curNode) OUTPUT then
     sb <- deref (getSourceBlock curNode) ;;
     Ok (text ++ block_toString sb)
   else if type_is_number (loc_type (getLocation curNode))
                          Blockly_INPUT_VALUE then
     let text := text ++ " an input value for block " in
     sb <- deref (getSourceBlock curNode) ;;
     Ok (text ++ block_toString sb)
   else if type_is_number (loc_type (getLocation curNode))
                          Blockly_NEXT_STATEMENT then
     let text := text ++ " a next connection for block " in
     sb <- deref (getSourceBlock curNode) ;;
     Ok (text ++ block_toString sb)
   else if types_eqb (getType curNode) PREVIOUS then
     let text := text ++ " a previous connection for block " in
     sb <- deref (getSourceBlock curNode) ;;
     Ok (text ++ block_toString sb)
   else if types_eqb (getType curNode) FIELD then
     s <- loc_getDisplayText_ location ;;
     Ok (text ++ (s ++ " "))
   else if types_eqb (getType curNode) WORKSPACE then
     Ok (text ++ " a workspace coordinate")
   else if types_eqb (getType curNode) STACK then
     Ok (text ++ " a stack of blocks")
   else Ok text)%outcome.

(** The current node is a conditional block:
    [location.type == 'controls_if']. *)
Definition conditional (curNode : node) : Prop :=
  type_is_name (loc_type (getLocation curNode)) "controls_if" = true.

(** The location is an input-value slot, or a next-statement connection. *)
Definition input_value_slot (curNode : node) : Prop :=
  type_is_number (loc_type (getLocation curNode)) Blockly_INPUT_VALUE = true.
Definition next_statement_connection (curNode : node) : Prop :=
  type_is_number (loc_type (getLocation curNode)) Blockly_NEXT_STATEMENT
  = true.

(** The nodes for which nodeToText_ calls a method of getSourceBlock(). *)
Definition reads_source_block (curNode : node) : Prop :=
  (getType curNode = BLOCK /\ ~ conditional curNode)
  \/ getType curNode = OUTPUT
  \/ getType curNode = PREVIOUS
  \/ input_value_slot curNode
  \/ next_statement_connection curNode.

(** A block node whose source block has no surrounding parent. *)
Definition non_nested (curNode : node) : Prop :=
  exists sb, getSourceBlock curNode = Some sb /\ getSurroundParent sb = None.

(** What nodeToText_ needs of its arguments not to call a method of null. *)
Definition describe_precondition (oldNode : option node) (curNode : node)
  : Prop :=
  (reads_source_block curNode -> getSourceBlock curNode <> None)
  /\ (forall old,
        getType curNode = BLOCK -> ~ conditional curNode ->
        non_nested curNode -> oldNode = Some old ->
        getSourceBlock old <> None).

(** A FIELD node whose location is a field. *)
Definition field_has_text (curNode : node) : Prop :=
  getType curNode = FIELD -> exists f, getLocation curNode = LocField f.

(** speakOut *)
Definition speakOut (msg : string) (element : option Element)
  : option Element :=
  match element with
  | Some e => Some (setAttribute e "aria-label" msg)
  | None => None
  end.

(** say *)
Definition say (type msg : string) : option Element := speakOut msg None.

(** sayNode *)
Definition sayNode (oldNode : option node) (curNode : node)
           (element : option Element) : outcome (option Element) :=
  (msg <- nodeToText_ oldNode curNode ;;
   Ok (speakOut msg element))%outcome.

End WithNodes.
End Speaker.

(* ================================================================== *)
(** * Ordered trees of nodes *)

(** Modelled from the spec: the node structure is owned by the editor; the
    spec describes it as a rooted, ordered, finite tree in which [in] is the
    first child, [out] the parent, [next] the following sibling and [prev]
    the preceding one. A node is a position in such a tree: the subtree
    under it, and the path of frames that leads from it up to the root. *)
Module Tree.
Import ASTNode.

(** What a node carries. *)
Record NodeData : Type := mkNodeData {
  nd_type : types;
  nd_location : Location;
  nd_sourceBlock : option Block
}.

Inductive tree : Type :=
| Node (d : NodeData) (kids : list tree).

Definition data (t : tree) : NodeData :=
  match t with Node d _ => d end.
Definition children (t : tree) : list tree :=
  match t with Node _ ks => ks end.

(** One level of the way up: the siblings to the left (nearest first),
    the data of the parent, the siblings to the right. *)
Record frame : Type := Frame {
  lefts : list tree;
  parent_data : NodeData;
  rights : list tree
}.

(** The way up, innermost frame first; the root has the empty one. *)
Abbreviation ctx := (list frame).

(** A position: the subtree under it and the way up from it. *)
Abbreviation pos := (tree * list frame)%type.

(** The parent subtree, rebuilt from a frame and the subtree under it. *)
Definition plug (t : tree) (f : frame) : tree :=
  Node (parent_data f) (rev (lefts f) ++ t :: rights f).

Definition pos_in (z : pos) : option pos :=
  match z with
  | (Node d (k :: ks), c) => Some (k, Frame [] d ks :: c)
  | (Node _ [], _) => None
  end.

Definition pos_out (z : pos) : option pos :=
  match z with
  | (t, f :: up) => Some (plug t f, up)
  | (_, []) => None
  end.

Definition pos_next (z : pos) : option pos :=
  match z with
  | (t, Frame l d (r :: rs) :: up) => Some (r, Frame (t :: l) d rs :: up)
  | _ => None
  end.

Definition pos_prev (z : pos) : option pos :=
  match z with
  | (t, Frame (l :: ls) d rs :: up) => Some (l, Frame ls d (t :: rs) :: up)
  | _ => None
  end.

#[export] Instance pos_ops : ASTNode.Ops pos := {
  next := pos_next;
  prev := pos_prev;
  in_ := pos_in;
  out := pos_out;
  getType := fun z => nd_type (data (fst z));
  getLocation := fun z => nd_location (data (fst z));
  getSourceBlock := fun z => nd_sourceBlock (data (fst z))
}.

(** The whole tree a position belongs to. *)
Fixpoint root_of (t : tree) (c : ctx) : tree :=
  match c with
  | [] => t
  | f :: up => root_of (plug t f) up
  end.

Definition root (z : pos) : tree := root_of (fst z) (snd z).

(** The positions of the subtree [t] that sits at [c], in pre-order: the
    node, then its children from left to right, each with all that is
    under it. *)
Fixpoint locs (t : tree) (c : ctx) : list pos :=
  match t with
  | Node d ks =>
      (t, c) ::
      (fix kids (l : list tree) (ks : list tree) : list pos :=
         match ks with
         | [] => []
         | k :: r => locs k (Frame l d r :: c) ++ kids (k :: l) r
         end) [] ks
  end.

(** The positions under the children [ks] of a node with data [d] at [c],
    where [l] are the children already passed (nearest first). *)
Fixpoint kids_locs (d : NodeData) (c : ctx) (l : list tree)
         (ks : list tree) : list pos :=
  match ks with
  | [] => []
  | k :: r => locs k (Frame l d r :: c) ++ kids_locs d c (k :: l) r
  end.

(** The pre-order listing of all positions of a tree. *)
Definition preorder (t : tree) : list pos := locs t [].

(** What follows the subtree [t] at [c] in the pre-order of the whole
    tree: the subtrees of the siblings to the right, then what follows
    the parent. *)
Fixpoint after_up (t : tree) (c : ctx) : list pos :=
  match c with
  | [] => []
  | f :: up =>
      kids_locs (parent_data f) up (t :: lefts f) (rights f)
      ++ after_up (plug t f) up
  end.

(** What follows a position in pre-order. *)
Definition after (z : pos) : list pos :=
  kids_locs (data (fst z)) (snd z) [] (children (fst z))
  ++ after_up (fst z) (snd z).

(** The positions under the siblings [l] to the left (nearest first), each
    subtree in reverse pre-order; [rest] is what lies to the right of
    them. *)
Fixpoint lefts_locs (d : NodeData) (c : ctx) (l : list tree)
         (rest : list tree) : list pos :=
  match l with
  | [] => []
  | x :: l' =>
      rev (locs x (Frame l' d rest :: c)) ++ lefts_locs d c l' (x :: rest)
  end.

(** What precedes a position in pre-order, nearest first. *)
Fixpoint before_of (t : tree) (c : ctx) : list pos :=
  match c with
  | [] => []
  | f :: up =>
      lefts_locs (parent_data f) up (lefts f) (t :: rights f)
      ++ (plug t f, up) :: before_of (plug t f) up
  end.

Definition before (z : pos) : list pos := before_of (fst z) (snd z).

(** The position of the last of the siblings [t :: rs], where [l] are the
    siblings to the left of [t]. *)
Fixpoint last_sibling (t : tree) (l : list tree) (d : NodeData)
         (rs : list tree) (up : ctx) : pos :=
  match rs with
  | [] => (t, Frame l d [] :: up)
  | r :: rs' => last_sibling r (t :: l) d rs' up
  end.

(** The last position of a subtree in pre-order: its right-most deepest
    node. *)
Definition last_loc (t : tree) (c : ctx) : pos := last (locs t c) (t, c).

(** The positions an operation walks through from a position, nearest
    first: those after it for next and in, those before it for prev and
    out. *)
Definition ahead (op : Navigation.operation) (z : pos) : list pos :=
  match op with
  | Navigation.OpNext | Navigation.OpIn => after z
  | Navigation.OpPrev | Navigation.OpOut => before z
  end.

End Tree.

(* ================================================================== *)
(** * A small workspace *)

(** A workspace with one stack: a repeat block with a field and a value
    block plugged in (which has a field of its own), followed by an if
    block.

<<
    ws
     `- stack
         |- repeat            (statement block)
         |    |- times        (field)
         |    `- number       (value block)
         |         `- num     (field)
         `- cond              (statement block, controls_if)
>> *)
Module Example.
Import ASTNode Tree.
#[local] Open Scope string_scope.

Definition out_conn : Connection := mkConnection 2 "output".

Definition repeat_block : Block :=
  mkBlock "controls_repeat_ext" None None "repeat 10 times".
Definition number_block : Block :=
  mkBlock "math_number" (Some out_conn) None "10".
Definition if_block : Block :=
  mkBlock "controls_if" None None "if do".

Definition ws_data : NodeData :=
  mkNodeData WORKSPACE (LocCoordinate (mkCoordinate 0 0 "(0, 0)")) None.
Definition stack_data : NodeData :=
  mkNodeData STACK (LocBlock repeat_block) (Some repeat_block).
Definition repeat_data : NodeData :=
  mkNodeData BLOCK (LocBlock repeat_block) (Some repeat_block).
Definition times_data : NodeData :=
  mkNodeData FIELD (LocField (mkField "repeat" "repeat"))
             (Some repeat_block).
Definition number_data : NodeData :=
  mkNodeData BLOCK (LocBlock number_block) (Some number_block).
Definition num_data : NodeData :=
  mkNodeData FIELD (LocField (mkField "10" "10")) (Some number_block).
Definition cond_data : NodeData :=
  mkNodeData BLOCK (LocBlock if_block) (Some if_block).

Definition num : tree := Node num_data [].
Definition number : tree := Node number_data [num].
Definition times : tree := Node times_data [].
Definition repeat : tree := Node repeat_data [times; number].
Definition cond : tree := Node cond_data [].
Definition stack : tree := Node stack_data [repeat; cond].
Definition workspace : tree := Node ws_data [stack].

(** The positions, by the way up from each. *)
Definition at_ws : pos := (workspace, []).
Definition at_stack : pos := (stack, [Frame [] ws_data []]).
Definition at_repeat : pos :=
  (repeat, Frame [] stack_data [cond] :: snd at_stack).
Definition at_times : pos :=
  (times, Frame [] repeat_data [number] :: snd at_repeat).
Definition at_number : pos :=
  (number, Frame [times] repeat_data [] :: snd at_repeat).
Definition at_num : pos :=
  (num, Frame [] number_data [] :: snd at_number).
Definition at_cond : pos :=
  (cond, Frame [repeat] stack_data [] :: snd at_stack).

End Example.

(* ================================================================== *)
(** * The traversal as the specification words it *)

(** A second description of the two walks, written from the specification's
    sentences rather than from the code, as relations over the node
    interface. The cursor's functions are compared with it below. *)
Module Described.

Section WithNodes.
Context {node : Type} `{ASTNode.Ops node}.
Variable isValid : option node -> bool.

(** Walking upward: try the ancestor's next(); if there is none take its
    out() and try again, until a sibling is found or the root is
    exhausted. *)
Inductive Ascend : option node -> option node -> Prop :=
| Ascend_exhausted : Ascend None None
| Ascend_sibling a s :
    ASTNode.next a = Some s -> Ascend (Some a) (Some s)
| Ascend_up a r :
    ASTNode.next a = None -> Ascend (ASTNode.out a) r -> Ascend (Some a) r.

(** The immediate pre-order successor: in() if present, else next(), else
    what the walk upward from out() finds. *)
Inductive Successor (n : node) : option node -> Prop :=
| Successor_in m :
    ASTNode.in_ n = Some m -> Successor n (Some m)
| Successor_next m :
    ASTNode.in_ n = None -> ASTNode.next n = Some m -> Successor n (Some m)
| Successor_ascend r :
    ASTNode.in_ n = None -> ASTNode.next n = None ->
    Ascend (ASTNode.out n) r -> Successor n r.

(** The forward traversal: stop at a successor that is valid, continue
    from one that is not, yield none when there is no successor. *)
Inductive Forward : node -> option node -> Prop :=
| Forward_none n : Successor n None -> Forward n None
| Forward_found n m :
    Successor n (Some m) -> isValid (Some m) = true -> Forward n (Some m)
| Forward_skip n m r :
    Successor n (Some m) -> isValid (Some m) = false -> Forward m r ->
    Forward n r.

(** Following next() to the last sibling. *)
Inductive LastSibling : node -> node -> Prop :=
| LastSibling_here n : ASTNode.next n = None -> LastSibling n n
| LastSibling_step n n' l :
    ASTNode.next n = Some n' -> LastSibling n' l -> LastSibling n l.

(** The right-most deepest child: take in(), follow next() to the last
    sibling, and repeat from there while there is a child. *)
Inductive RightMostDeepest : node -> node -> Prop :=
| RightMostDeepest_leaf n : ASTNode.in_ n = None -> RightMostDeepest n n
| RightMostDeepest_down n c l r :
    ASTNode.in_ n = Some c -> LastSibling c l -> RightMostDeepest l r ->
    RightMostDeepest n r.

(** The immediate predecessor: the right-most deepest child of prev() if
    there is one, else out() itself. *)
Inductive Predecessor (n : node) : option node -> Prop :=
| Predecessor_sibling s m :
    ASTNode.prev n = Some s -> RightMostDeepest s m ->
    Predecessor n (Some m)
| Predecessor_parent :
    ASTNode.prev n = None -> Predecessor n (ASTNode.out n).

(** The reverse traversal. *)
Inductive Backward : node -> option node -> Prop :=
| Backward_none n : Predecessor n None -> Backward n None
| Backward_found n m :
    Predecessor n (Some m) -> isValid (Some m) = true ->
    Backward n (Some m)
| Backward_skip n m r :
    Predecessor n (Some m) -> isValid (Some m) = false -> Backward m r ->
    Backward n r.

End WithNodes.
End Described.

(* ================================================================== *)
(** * Calls in a row *)

Module Keys.


Section WithNodes.
Context {node : Type} `{ASTNode.Ops node}.

(** The same operation called [k] times in a row, as a key handler does
    when the key is pressed [k] times: what the calls returned, in order,
    and the cursor after the last one. *)
Fixpoint press (op : Navigation.operation) (fuel k : nat)
  (c : LineCursor.Cursor) : run (list (option node) * LineCursor.Cursor) :=
  match k with
  | O => Done ([], c)
  | S k' =>
      match Navigation.perform op fuel c with
      | Done (r, c1) =>
          match press op fuel k' c1 with
          | Done (rs, c2) => Done (r :: rs, c2)
          | OutOfFuel => OutOfFuel
          end
      | OutOfFuel => OutOfFuel
      end
  end.

End WithNodes.

(** The positions of a tree at which an operation stops, one call after
    the other, from a position with [l1] before it and [l2] after it in
    the pre-order listing: the accepted ones among [l2] for next and in,
    among [l1], from the nearest on, for prev and out. *)
Definition stops (op : Navigation.operation) (l1 l2 : list Tree.pos)
  : list Tree.pos :=
  filter (fun m => @Navigation.accepts Tree.pos Tree.pos_ops op (Some m))
         match op with
         | Navigation.OpNext | Navigation.OpIn => l2
         | Navigation.OpPrev | Navigation.OpOut => rev l1
         end.

End Keys.

(* ================================================================== *)
(** * Nodes linked in a cycle *)

(** An implementation of the node interface that is no tree: one node,
    which is its own child, sibling and parent. *)
Module Cyclic.
Import ASTNode.

Definition loop_ops : ASTNode.Ops unit := {|
  next := fun n => Some n;
  prev := fun n => Some n;
  in_ := fun n => Some n;
  out := fun n => Some n;
  getType := fun _ => WORKSPACE;
  getLocation := fun _ => LocCoordinate (mkCoordinate 0 0 EmptyString);
  getSourceBlock := fun _ => None
|}.

End Cyclic.

(* ================================================================== *)
(** * The element the speaker writes to *)

Module Dom.

(** [element.getAttribute(name)] *)
Definition getAttribute (e : Speaker.Element) (name : string)
  : option string :=
  match find (fun kv => String.eqb (fst kv) name) e with
  | Some kv => Some (snd kv)
  | None => None
  end.

End Dom.

(* ================================================================== *)
(** * Blockly.blockRendering.constants.NOTCH *)

(** The notch of a previous or next connection. Its main path is a line
    through three points; the points are modelled as pairs of integers, as
    they are handed to Blockly.utils.svgPaths.point and svgPaths.line,
    which build the path string and are not part of the sources. *)
Module Notch.
#[local] Open Scope Z_scope.

Definition NOTCH_WIDTH : Z := 15.
Definition NOTCH_HEIGHT : Z := 4.

Definition width : Z := NOTCH_WIDTH.
Definition height : Z := NOTCH_HEIGHT.
Definition innerWidth : Z := 3.
(** [(width - innerWidth) / 2], an exact division. *)
Definition outerWidth : Z := (width - innerWidth) / 2.

(** makeMainPath: the points of the line. *)
Definition makeMainPath (dir : Z) : list (Z * Z) :=
  [ (dir * outerWidth, height);
    (dir * innerWidth, 0);
    (dir * outerWidth, - height) ].

Definition pathLeft : list (Z * Z) := makeMainPath 1.
Definition pathRight : list (Z * Z) := makeMainPath (-1).

(** The points of a path added up, part by part. *)
Definition displacement (path : list (Z * Z)) : Z * Z :=
  fold_left (fun p d => (fst p + fst d, snd p + snd d)) path (0, 0).

End Notch.

(* ================================================================== *)
(** * The cursor against the described traversal *)

Section CursorGeneric.
Context {node : Type} `{ASTNode.Ops node}.
Variable isValid : option node -> bool.

Lemma findSiblingOrParent_sound fuel a r :
  LineCursor.findSiblingOrParent_ fuel a = Done r ->
  Described.Ascend a r.
Proof.
  revert a; induction fuel as [|fuel IH]; intros a; simpl; [discriminate|].
  destruct a as [a|].
  - destruct (ASTNode.next a) as [s|] eqn:En.
    + intros [= <-]. now apply Described.Ascend_sibling.
    + intros Hr. apply Described.Ascend_up; auto.
  - intros [= <-]. constructor.
Qed.

Lemma findSiblingOrParent_complete a r :
  Described.Ascend a r ->
  exists f0, forall fuel, f0 <= fuel ->
    LineCursor.findSiblingOrParent_ fuel a = Done r.
Proof.
  induction 1 as [|a s En|a r En _ [f0 IH]].
  - exists 1. intros [|fuel] Hf; [lia|reflexivity].
  - exists 1. intros [|fuel] Hf; [lia|]. simpl. now rewrite En.
  - exists (S f0). intros [|fuel] Hf; [lia|]. simpl. rewrite En.
    apply IH. lia.
Qed.

Lemma in_or_next_Some n m :
  LineCursor.in_or_next n = Some m ->
  Described.Successor n (Some m).
Proof.
  unfold LineCursor.in_or_next.
  destruct (ASTNode.in_ n) as [c|] eqn:Ei.
  - intros [= <-]. now apply Described.Successor_in.
  - intros En. now apply Described.Successor_next.
Qed.

Lemma in_or_next_None n :
  LineCursor.in_or_next n = None ->
  ASTNode.in_ n = None /\ ASTNode.next n = None.
Proof.
  unfold LineCursor.in_or_next.
  destruct (ASTNode.in_ n); [discriminate|auto].
Qed.

Lemma Successor_inv n r :
  Described.Successor n r ->
  (exists m, r = Some m /\ LineCursor.in_or_next n = Some m) \/
  (LineCursor.in_or_next n = None /\ Described.Ascend (ASTNode.out n) r).
Proof.
  unfold LineCursor.in_or_next.
  destruct 1 as [m Ei|m Ei En|r Ei En Ha].
  - left. exists m. now rewrite Ei.
  - left. exists m. now rewrite Ei.
  - right. now rewrite Ei.
Qed.

Lemma lastSibling_sound fuel n l :
  LineCursor.lastSibling fuel n = Done l -> Described.LastSibling n l.
Proof.
  revert n; induction fuel as [|fuel IH]; intros n; simpl; [discriminate|].
  destruct (ASTNode.next n) as [n'|] eqn:En.
  - intros Hr. eapply Described.LastSibling_step; eauto.
  - intros [= <-]. now apply Described.LastSibling_here.
Qed.

Lemma lastSibling_complete n l :
  Described.LastSibling n l ->
  exists f0, forall fuel, f0 <= fuel ->
    LineCursor.lastSibling fuel n = Done l.
Proof.
  induction 1 as [n En|n n' l En _ [f0 IH]].
  - exists 1. intros [|fuel] Hf; [lia|]. simpl. now rewrite En.
  - exists (S f0). intros [|fuel] Hf; [lia|]. simpl. rewrite En.
    apply IH. lia.
Qed.

Lemma getRightMostChild_sound fuel n r :
  LineCursor.getRightMostChild_ fuel n = Done r ->
  Described.RightMostDeepest n r.
Proof.
  revert n; induction fuel as [|fuel IH]; intros n; simpl; [discriminate|].
  destruct (ASTNode.in_ n) as [c|] eqn:Ei.
  - destruct (LineCursor.lastSibling fuel c) as [l|] eqn:El; simpl;
      [|discriminate].
    apply lastSibling_sound in El. intros Hr.
    eapply Described.RightMostDeepest_down; eauto.
  - intros [= <-]. now apply Described.RightMostDeepest_leaf.
Qed.

Lemma getRightMostChild_complete n r :
  Described.RightMostDeepest n r ->
  exists f0, forall fuel, f0 <= fuel ->
    LineCursor.getRightMostChild_ fuel n = Done r.
Proof.
  induction 1 as [n Ei|n c l r Ei Hl _ [f1 IH]].
  - exists 1. intros [|fuel] Hf; [lia|]. simpl. now rewrite Ei.
  - apply lastSibling_complete in Hl. destruct Hl as [f0 Hl].
    exists (S (Nat.max f0 f1)). intros [|fuel] Hf; [lia|]. simpl.
    rewrite Ei, Hl by lia. simpl. apply IH. lia.
Qed.

Lemma getPreviousNode_sound fuel n r :
  LineCursor.getPreviousNode_ fuel (Some n) isValid = Done r ->
  Described.Backward isValid n r.
Proof.
  revert n; induction fuel as [|fuel IH]; intros n; simpl; [discriminate|].
  assert (Hstep : forall p,
    match ASTNode.prev n with
    | Some s => run_bind (LineCursor.getRightMostChild_ fuel s)
                         (fun r => Done (Some r))
    | None => Done (ASTNode.out n)
    end = Done p -> Described.Predecessor n p).
  { intros p. destruct (ASTNode.prev n) as [s|] eqn:Ep.
    - destruct (LineCursor.getRightMostChild_ fuel s) as [m|] eqn:Em;
        simpl; [|discriminate].
      intros [= <-]. apply getRightMostChild_sound in Em.
      eapply Described.Predecessor_sibling; eauto.
    - intros [= <-]. now apply Described.Predecessor_parent. }
  destruct (match ASTNode.prev n with Some _ => _ | None => _ end)
    as [p|]; simpl; [|discriminate].
  specialize (Hstep p eq_refl).
  destruct p as [m|].
  - destruct (isValid (Some m)) eqn:Ev.
    + intros [= <-]. now apply Described.Backward_found.
    + intros Hr. eapply Described.Backward_skip; eauto.
  - destruct (isValid None); intros [= <-];
      now apply Described.Backward_none.
Qed.

Lemma Predecessor_complete n p :
  Described.Predecessor n p ->
  exists f0, forall fuel, f0 <= fuel ->
    match ASTNode.prev n with
    | Some s => run_bind (LineCursor.getRightMostChild_ fuel s)
                         (fun r => Done (Some r))
    | None => Done (ASTNode.out n)
    end = Done p.
Proof.
  destruct 1 as [s m Ep Hm|Ep]; rewrite Ep.
  - apply getRightMostChild_complete in Hm. destruct Hm as [f0 Hm].
    exists f0. intros fuel Hf. now rewrite Hm.
  - exists 0. reflexivity.
Qed.

Lemma getPreviousNode_complete n r :
  Described.Backward isValid n r ->
  exists f0, forall fuel, f0 <= fuel ->
    LineCursor.getPreviousNode_ fuel (Some n) isValid = Done r.
Proof.
  induction 1 as [n Hp|n m Hp Ev|n m r Hp Ev _ [f1 IH]];
    apply Predecessor_complete in Hp; destruct Hp as [f0 Hp].
  - exists (S f0). intros [|fuel] Hf; [lia|]. simpl.
    rewrite Hp by lia. simpl. now destruct (isValid None).
  - exists (S f0). intros [|fuel] Hf; [lia|]. simpl.
    rewrite Hp by lia. simpl. now rewrite Ev.
  - exists (S (Nat.max f0 f1)). intros [|fuel] Hf; [lia|]. simpl.
    rewrite Hp by lia. simpl. rewrite Ev. apply IH. lia.
Qed.

Hypothesis isValid_null : isValid None = false.

Lemma getNextNode_sound fuel n r :
  LineCursor.getNextNode_ fuel (Some n) isValid = Done r ->
  Described.Forward isValid n r.
Proof.
  revert n; induction fuel as [|fuel IH]; intros n; simpl; [discriminate|].
  destruct (LineCursor.in_or_next n) as [m|] eqn:Es.
  - apply in_or_next_Some in Es.
    destruct (isValid (Some m)) eqn:Ev.
    + intros [= <-]. now apply Described.Forward_found.
    + intros Hr. eapply Described.Forward_skip; eauto.
  - apply in_or_next_None in Es. destruct Es as [Ei En].
    rewrite isValid_null.
    destruct (LineCursor.findSiblingOrParent_ fuel (ASTNode.out n))
      as [s|] eqn:Ef; simpl; [|discriminate].
    apply findSiblingOrParent_sound in Ef.
    assert (Hs : Described.Successor n s)
      by now apply Described.Successor_ascend.
    destruct s as [s|].
    + destruct (isValid (Some s)) eqn:Ev.
      * intros [= <-]. now apply Described.Forward_found.
      * intros Hr. eapply Described.Forward_skip; eauto.
    + rewrite isValid_null. intros [= <-].
      now apply Described.Forward_none.
Qed.

Lemma getNextNode_complete n r :
  Described.Forward isValid n r ->
  exists f0, forall fuel, f0 <= fuel ->
    LineCursor.getNextNode_ fuel (Some n) isValid = Done r.
Proof.
  induction 1 as [n Hs|n m Hs Ev|n m r Hs Ev _ [f1 IH]];
    apply Successor_inv in Hs;
    destruct Hs as [(m' & Em & Es)|[Es Ha]]; try discriminate.
  - apply findSiblingOrParent_complete in Ha. destruct Ha as [f0 Ha].
    exists (S f0). intros [|fuel] Hf; [lia|]. simpl.
    rewrite Es, isValid_null, Ha by lia. simpl.
    now rewrite isValid_null.
  - injection Em as <-. exists 1. intros [|fuel] Hf; [lia|]. simpl.
    now rewrite Es, Ev.
  - apply findSiblingOrParent_complete in Ha. destruct Ha as [f0 Ha].
    exists (S f0). intros [|fuel] Hf; [lia|]. simpl.
    rewrite Es, isValid_null, Ha by lia. simpl. now rewrite Ev.
  - injection Em as <-. exists (S f1). intros [|fuel] Hf; [lia|]. simpl.
    rewrite Es, Ev. apply IH. lia.
  - apply findSiblingOrParent_complete in Ha. destruct Ha as [f0 Ha].
    exists (S (Nat.max f0 f1)). intros [|fuel] Hf; [lia|]. simpl.
    rewrite Es, isValid_null, Ha by lia. simpl. rewrite Ev.
    apply IH. lia.
Qed.

End CursorGeneric.

(* ================================================================== *)
(** * Positions of an ordered tree in pre-order *)

Section TreeOrder.
Import Tree.

Lemma tree_Forall_ind (P : tree -> Prop) :
  (forall d ks, Forall P ks -> P (Node d ks)) -> forall t, P t.
Proof.
  intros step. fix IH 1. intros [d ks]. apply step.
  induction ks as [|k r IHks]; constructor; [apply IH|exact IHks].
Qed.

Lemma locs_eq d ks c :
  locs (Node d ks) c = (Node d ks, c) :: kids_locs d c [] ks.
Proof.
  simpl. f_equal. generalize (@nil tree) as l.
  induction ks as [|k r IH]; intros l; simpl; [reflexivity|].
  now rewrite IH.
Qed.

Lemma locs_head t c : exists tl, locs t c = (t, c) :: tl.
Proof. destruct t as [d ks]. rewrite locs_eq. eauto. Qed.

Lemma plug_shift t x l d rs :
  plug x (Frame l d (t :: rs)) = plug t (Frame (x :: l) d rs).
Proof. unfold plug; simpl. now rewrite <- app_assoc. Qed.

(** Where a position sits in the listing of a subtree decides what is
    before it and what is after it. *)
Lemma locs_split t :
  forall c l1 m l2,
    locs t c = l1 ++ m :: l2 ->
    before m = rev l1 ++ before_of t c /\
    after m = l2 ++ after_up t c.
Proof.
  induction t as [d ks IHks] using tree_Forall_ind.
  assert (Hkids : forall l c l1 m l2,
    kids_locs d c l ks = l1 ++ m :: l2 ->
    before m = rev l1 ++ lefts_locs d c l ks
               ++ (Node d (rev l ++ ks), c)
                  :: before_of (Node d (rev l ++ ks)) c /\
    after m = l2 ++ after_up (Node d (rev l ++ ks)) c).
  { induction IHks as [|k r Hk _ IHr]; intros l c l1 m l2 E; simpl in E.
    - now destruct l1.
    - assert (Er : rev (k :: l) ++ r = rev l ++ k :: r)
        by (simpl; now rewrite <- app_assoc).
      apply app_eq_app in E. destruct E as [x [[E1 E2]|[E1 E2]]].
      + destruct x as [|y x].
        * rewrite app_nil_r in E1. subst l1. simpl in E2.
          specialize (IHr (k :: l) c [] m l2 (eq_sym E2)).
          rewrite Er in IHr. simpl in IHr.
          destruct IHr as [Hb Ha]. split; [|exact Ha].
          rewrite Hb. now rewrite <- app_assoc.
        * injection E2 as <- E2.
          destruct (Hk _ _ _ _ E1) as [Hb Ha]. simpl in Hb, Ha.
          split.
          -- rewrite Hb. reflexivity.
          -- rewrite Ha, E2. now rewrite <- app_assoc.
      + subst l1.
        specialize (IHr (k :: l) c x m l2 E2).
        rewrite Er in IHr. simpl in IHr.
        destruct IHr as [Hb Ha]. split; [|exact Ha].
        rewrite Hb, rev_app_distr. now rewrite <- !app_assoc. }
  intros c l1 m l2 E. rewrite locs_eq in E.
  destruct l1 as [|y l1]; simpl in E; injection E as <- E.
  - subst l2. split; reflexivity.
  - destruct (Hkids [] c l1 m l2 E) as [Hb Ha]. simpl in Hb, Ha.
    split; [|exact Ha]. simpl. rewrite Hb. now rewrite <- app_assoc.
Qed.

(** In the pre-order listing of a tree, a position is preceded by
    [before] (in reverse) and followed by [after]. *)
Lemma preorder_split T l1 z l2 :
  preorder T = l1 ++ z :: l2 ->
  before z = rev l1 /\ after z = l2.
Proof.
  intros E. apply locs_split in E. simpl in E.
  now rewrite !app_nil_r in E.
Qed.

(** No position occurs twice in the listing. *)
Lemma preorder_NoDup T : NoDup (preorder T).
Proof.
  assert (H : forall l l1, preorder T = l1 ++ l -> NoDup l).
  { induction l as [|z l IH]; intros l1 E; constructor.
    - intros Hin. apply in_split in Hin. destruct Hin as (a & b & ->).
      pose proof (preorder_split T l1 z (a ++ z :: b) E) as [H1 _].
      assert (E' : preorder T = (l1 ++ z :: a) ++ z :: b)
        by (rewrite E, <- app_assoc; reflexivity).
      apply preorder_split in E'. destruct E' as [H2 _].
      rewrite H1 in H2. apply (f_equal (@List.length pos)) in H2.
      rewrite !length_rev, length_app in H2. simpl in H2. lia.
    - apply (IH (l1 ++ [z])). rewrite E, <- app_assoc. reflexivity. }
  apply (H _ []). reflexivity.
Qed.

(** Every position is in the listing of the tree it belongs to. *)
Lemma root_split t c :
  preorder (root_of t c) = rev (before_of t c) ++ (t, c) :: after (t, c).
Proof.
  revert t; induction c as [|f up IH]; intros t.
  - destruct t as [d ks]. unfold preorder, after. simpl root_of.
    rewrite locs_eq. simpl. now rewrite app_nil_r.
  - simpl root_of. rewrite IH. destruct f as [l d rs].
    unfold after, plug. simpl fst. simpl snd. simpl data.
    simpl children. simpl before_of. simpl after_up. unfold plug.
    simpl lefts. simpl parent_data. simpl rights.
    set (P := Node d (rev l ++ t :: rs)).
    rewrite rev_app_distr. simpl rev. rewrite <- !app_assoc. simpl.
    f_equal. f_equal.
    assert (Hk : forall l rest,
      kids_locs d up [] (rev l ++ rest)
      = rev (lefts_locs d up l rest) ++ kids_locs d up l rest).
    { clear. induction l as [|x l IHl]; intros rest; [reflexivity|].
      simpl rev. rewrite <- app_assoc. simpl. rewrite IHl. simpl.
      rewrite rev_app_distr, rev_involutive.
      now rewrite <- app_assoc. }
    rewrite Hk. simpl kids_locs. destruct t as [dt kt].
    rewrite locs_eq. rewrite <- !app_assoc. simpl. reflexivity.
Qed.

(** ** Forward: the successor of a position *)

Lemma kids_locs_cons d c l k r :
  kids_locs d c l (k :: r)
  = (k, Frame l d r :: c)
    :: kids_locs (data k) (Frame l d r :: c) [] (children k)
    ++ kids_locs d c (k :: l) r.
Proof. destruct k as [dk kk]. cbn [kids_locs]. now rewrite locs_eq. Qed.

Lemma after_up_cons t l d rs up :
  after_up t (Frame l d rs :: up)
  = kids_locs d up (t :: l) rs ++ after_up (plug t (Frame l d rs)) up.
Proof. reflexivity. Qed.

Lemma findSiblingOrParent_tree c :
  forall t fuel,
    S (List.length c) < fuel ->
    LineCursor.findSiblingOrParent_ fuel (Some (t, c))
    = Done (hd_error (after_up t c)).
Proof.
  induction c as [|[l d rs] up IH]; intros t fuel Hf;
    (destruct fuel as [|fuel]; [lia|]); simpl.
  - destruct fuel as [|fuel]; [lia|reflexivity].
  - destruct rs as [|r rs].
    + simpl in Hf. rewrite IH by lia. reflexivity.
    + now rewrite kids_locs_cons.
Qed.

Lemma in_or_next_tree z m :
  LineCursor.in_or_next z = Some m -> hd_error (after z) = Some m.
Proof.
  destruct z as [[d ks] c]. unfold LineCursor.in_or_next, after. simpl.
  destruct ks as [|k r].
  - destruct c as [|[l d' rs] up]; [discriminate|].
    destruct rs as [|x rs]; [discriminate|]. intros [= <-].
    cbn [kids_locs app]. now rewrite after_up_cons, kids_locs_cons.
  - intros [= <-]. now rewrite kids_locs_cons.
Qed.

Lemma ascend_tree z fuel :
  LineCursor.in_or_next z = None ->
  S (List.length (snd z)) < fuel ->
  LineCursor.findSiblingOrParent_ fuel (ASTNode.out z)
  = Done (hd_error (after z)).
Proof.
  destruct z as [[d ks] c]. unfold LineCursor.in_or_next, after. simpl.
  destruct ks as [|k r]; [|discriminate].
  destruct c as [|[l d' rs] up]; simpl.
  - intros _ Hf. destruct fuel as [|fuel]; [lia|reflexivity].
  - destruct rs as [|x rs]; [|discriminate]. intros _ Hf.
    rewrite findSiblingOrParent_tree by lia. reflexivity.
Qed.

Lemma after_up_tl c :
  forall t m,
    hd_error (after_up t c) = Some m -> after m = tl (after_up t c).
Proof.
  induction c as [|[l d rs] up IH]; intros t m; [discriminate|].
  rewrite after_up_cons. destruct rs as [|r rs].
  - cbn [kids_locs app]. apply IH.
  - rewrite kids_locs_cons. cbn [app hd_error tl]. intros [= <-].
    unfold after. cbn [fst snd]. rewrite after_up_cons, <- app_assoc.
    now rewrite (plug_shift r t l d rs).
Qed.

Lemma after_tl z m :
  hd_error (after z) = Some m -> after m = tl (after z).
Proof.
  destruct z as [[d ks] c]. unfold after at 1 3.
  cbn [fst snd data children]. destruct ks as [|k r].
  - cbn [kids_locs app]. apply after_up_tl.
  - rewrite kids_locs_cons. cbn [app hd_error tl]. intros [= <-].
    unfold after. cbn [fst snd]. rewrite after_up_cons, <- app_assoc.
    reflexivity.
Qed.

(** With enough fuel, the forward walk returns the first position after
    the start, in pre-order, that the predicate accepts. *)
Lemma getNextNode_tree (isValid : option pos -> bool) :
  isValid None = false ->
  forall z,
  exists f0, forall fuel, f0 <= fuel ->
    LineCursor.getNextNode_ fuel (Some z) isValid
    = Done (find (fun m => isValid (Some m)) (after z)).
Proof.
  intros Hnull z.
  remember (after z) as l eqn:El. revert z El.
  induction l as [|m l IH]; intros z El.
  - exists (3 + List.length (snd z)). intros [|fuel] Hf; [lia|].
    cbn [LineCursor.getNextNode_].
    destruct (LineCursor.in_or_next z) as [m|] eqn:Es.
    + apply in_or_next_tree in Es. rewrite <- El in Es. discriminate.
    + rewrite Hnull, (ascend_tree z fuel Es) by lia.
      rewrite <- El. simpl. now rewrite Hnull.
  - assert (Em : after m = l).
    { rewrite (after_tl z m); rewrite <- El; reflexivity. }
    destruct (IH m (eq_sym Em)) as [f1 IHm].
    exists (S (Nat.max f1 (2 + List.length (snd z)))).
    intros [|fuel] Hf; [lia|]. cbn [LineCursor.getNextNode_ find].
    destruct (LineCursor.in_or_next z) as [m'|] eqn:Es.
    + apply in_or_next_tree in Es. rewrite <- El in Es.
      injection Es as <-.
      destruct (isValid (Some m)); [reflexivity|]. apply IHm. lia.
    + rewrite Hnull, (ascend_tree z fuel Es) by lia.
      rewrite <- El. simpl.
      destruct (isValid (Some m)); [reflexivity|]. apply IHm. lia.
Qed.

(** ** Backward: the predecessor of a position *)

Lemma last_nonempty {A : Type} (l : list A) (x y : A) :
  l <> [] -> last l x = last l y.
Proof.
  induction l as [|a l IH]; [congruence|]. intros _.
  destruct l as [|b l]; [reflexivity|].
  change (last (b :: l) x = last (b :: l) y). apply IH. discriminate.
Qed.

Lemma last_app_nonempty {A : Type} (l1 l2 : list A) (x : A) :
  l2 <> [] -> last (l1 ++ l2) x = last l2 x.
Proof.
  intros Hne. induction l1 as [|a l1 IH]; [reflexivity|].
  simpl app. destruct (l1 ++ l2) eqn:E.
  - apply app_eq_nil in E. destruct E; congruence.
  - exact IH.
Qed.

Lemma hd_rev_app {A : Type} (l r : list A) (x : A) :
  l <> [] -> hd_error (rev l ++ r) = Some (last l x).
Proof.
  intros Hne. destruct (exists_last Hne) as (l' & a & ->).
  rewrite rev_app_distr, last_last. reflexivity.
Qed.

Lemma locs_nonempty t c : locs t c <> [].
Proof. destruct (locs_head t c) as [tl ->]. discriminate. Qed.

Lemma lastSibling_tree rs :
  forall t l d up fuel,
    List.length rs < fuel ->
    LineCursor.lastSibling fuel (t, Frame l d rs :: up)
    = Done (last_sibling t l d rs up).
Proof.
  induction rs as [|r rs IH]; intros t l d up fuel Hf;
    (destruct fuel as [|fuel]; [simpl in Hf; lia|]);
    cbn [LineCursor.lastSibling ASTNode.next pos_ops pos_next last_sibling].
  - reflexivity.
  - apply IH. simpl in Hf. lia.
Qed.

Lemma last_sibling_In rs :
  forall t l d up, In (fst (last_sibling t l d rs up)) (t :: rs).
Proof.
  induction rs as [|r rs IH]; intros t l d up; cbn [last_sibling].
  - now left.
  - right. apply IH.
Qed.

Lemma kids_locs_last d c rs :
  forall k l x,
    last (kids_locs d c l (k :: rs)) x
    = last_loc (fst (last_sibling k l d rs c))
               (snd (last_sibling k l d rs c)).
Proof.
  induction rs as [|r rs IH]; intros k l x.
  - cbn [kids_locs last_sibling fst snd]. rewrite app_nil_r.
    apply last_nonempty, locs_nonempty.
  - change (kids_locs d c l (k :: r :: rs))
      with (locs k (Frame l d (r :: rs) :: c)
            ++ kids_locs d c (k :: l) (r :: rs)).
    rewrite last_app_nonempty.
    + cbn [last_sibling]. apply IH.
    + rewrite kids_locs_cons. discriminate.
Qed.

Lemma getRightMostChild_tree t :
  forall c,
  exists f0, forall fuel, f0 <= fuel ->
    LineCursor.getRightMostChild_ fuel (t, c) = Done (last_loc t c).
Proof.
  induction t as [d ks IHks] using tree_Forall_ind. intros c.
  destruct ks as [|k rs].
  - exists 1. intros [|fuel] Hf; [lia|]. reflexivity.
  - pose proof (last_sibling_In rs k [] d c) as Hin.
    rewrite Forall_forall in IHks.
    destruct (IHks _ Hin (snd (last_sibling k [] d rs c))) as [f1 IH].
    exists (S (Nat.max f1 (S (List.length rs)))).
    intros [|fuel] Hf; [lia|].
    cbn [LineCursor.getRightMostChild_ ASTNode.in_ pos_ops pos_in].
    rewrite lastSibling_tree by lia. cbn [run_bind].
    rewrite (surjective_pairing (last_sibling k [] d rs c)).
    rewrite IH by lia. f_equal.
    unfold last_loc at 2. rewrite locs_eq.
    change ((Node d (k :: rs), c) :: kids_locs d c [] (k :: rs))
      with ([(Node d (k :: rs), c)] ++ kids_locs d c [] (k :: rs)).
    rewrite last_app_nonempty by (rewrite kids_locs_cons; discriminate).
    symmetry. apply kids_locs_last.
Qed.

Lemma before_of_cons t l d rs up :
  before_of t (Frame l d rs :: up)
  = lefts_locs d up l (t :: rs)
    ++ (plug t (Frame l d rs), up) :: before_of (plug t (Frame l d rs)) up.
Proof. reflexivity. Qed.

Lemma lefts_locs_cons d c x l rest :
  lefts_locs d c (x :: l) rest
  = rev (locs x (Frame l d rest :: c)) ++ lefts_locs d c l (x :: rest).
Proof. reflexivity. Qed.

(** The step of the reverse walk lands on the position just before. *)
Lemma predecessor_tree (z : pos) :
  exists f0, forall fuel, f0 <= fuel ->
    match ASTNode.prev z with
    | Some s => run_bind (LineCursor.getRightMostChild_ fuel s)
                         (fun r => Done (Some r))
    | None => Done (ASTNode.out z)
    end = Done (hd_error (before z)).
Proof.
  destruct z as [t c]. unfold before. cbn [fst snd].
  destruct c as [|[l d rs] up].
  - exists 0. reflexivity.
  - rewrite before_of_cons. destruct l as [|x l].
    + exists 0. reflexivity.
    + cbn [ASTNode.prev pos_ops pos_prev].
      destruct (getRightMostChild_tree x (Frame l d (t :: rs) :: up))
        as [f0 Hr].
      exists f0. intros fuel Hf. rewrite Hr by lia. cbn [run_bind].
      rewrite lefts_locs_cons, <- app_assoc.
      rewrite (hd_rev_app _ _ (x, Frame l d (t :: rs) :: up))
        by apply locs_nonempty.
      reflexivity.
Qed.

Lemma before_tl (z m : pos) :
  hd_error (before z) = Some m -> before m = tl (before z).
Proof.
  destruct z as [t c]. unfold before at 1 3. cbn [fst snd].
  destruct c as [|[l d rs] up]; [discriminate|].
  rewrite before_of_cons. destruct l as [|x l].
  - cbn [lefts_locs app hd_error tl]. intros [= <-]. reflexivity.
  - rewrite lefts_locs_cons, <- app_assoc.
    destruct (exists_last (locs_nonempty x (Frame l d (t :: rs) :: up)))
      as (l1 & y & E).
    rewrite E, rev_app_distr. cbn [rev app hd_error tl].
    intros [= <-].
    destruct (locs_split x _ l1 y [] E) as [Hb _].
    rewrite Hb, before_of_cons. now rewrite plug_shift.
Qed.

(** With enough fuel, the reverse walk returns the nearest position
    before the start, in pre-order, that the predicate accepts. *)
Lemma getPreviousNode_tree (isValid : option pos -> bool) :
  forall z : pos,
  exists f0, forall fuel, f0 <= fuel ->
    LineCursor.getPreviousNode_ fuel (Some z) isValid
    = Done (find (fun m => isValid (Some m)) (before z)).
Proof.
  intros z.
  remember (before z) as l eqn:El. revert z El.
  induction l as [|m l IH]; intros z El;
    destruct (predecessor_tree z) as [f0 Hp]; rewrite <- El in Hp.
  - exists (S f0). intros [|fuel] Hf; [lia|].
    cbn [LineCursor.getPreviousNode_]. rewrite Hp by lia.
    cbn [run_bind hd_error find]. now destruct (isValid None).
  - assert (Em : before m = l).
    { rewrite (before_tl z m); rewrite <- El; reflexivity. }
    destruct (IH m (eq_sym Em)) as [f1 IHm].
    exists (S (Nat.max f0 f1)). intros [|fuel] Hf; [lia|].
    cbn [LineCursor.getPreviousNode_]. rewrite Hp by lia.
    cbn [run_bind hd_error find].
    destruct (isValid (Some m)); [reflexivity|]. apply IHm. lia.
Qed.

End TreeOrder.

(* ================================================================== *)
(** * The walks of the cursor are the described ones *)

Section Refinement.
Context {node : Type} `{ASTNode.Ops node}.

(** C2. The forward walk of getNextNode_ is the described one: the immediate
    successor of a node is in() if present, else next(), else what the
    walk upward finds (out(), then that ancestor's next(), and so on until
    a sibling is found or the root is exhausted, which yields none); a
    successor the predicate rejects is skipped by continuing from it. The
    code returns [r] with some recursion budget exactly when the described
    traversal yields [r], for findSiblingOrParent_ and for getNextNode_,
    for every predicate that rejects null (as validNode_ and validInNode_
    do). *)
Theorem getNextNode_as_described (isValid : option node -> bool) :
  isValid None = false ->
  (forall a r,
     (exists fuel, LineCursor.findSiblingOrParent_ fuel a = Done r)
     <-> Described.Ascend a r)
  /\ (forall n r,
        (exists fuel,
           LineCursor.getNextNode_ fuel (Some n) isValid = Done r)
        <-> Described.Forward isValid n r).
Proof.
  intros Hnull. split.
  - intros a r. split.
    + intros [fuel Hr]. eapply findSiblingOrParent_sound; eauto.
    + intros Ha. apply findSiblingOrParent_complete in Ha as [f0 Hf].
      exists f0. apply Hf. lia.
  - intros n r. split.
    + intros [fuel Hr]. eapply getNextNode_sound; eauto.
    + intros Hd. apply (getNextNode_complete _ Hnull) in Hd as [f0 Hf].
      exists f0. apply Hf. lia.
Qed.

(** C3. The reverse walk of getPreviousNode_ is the described one: the
    immediate predecessor of a node is the right-most deepest child of
    prev() when prev() exists (take in(), follow next() to the last
    sibling, repeat while there is a child), and out() itself, without any
    descent, when it does not; a predecessor the predicate rejects is
    skipped by repeating the step from it, and the walk yields none when
    no predecessor remains. The code returns [r] with some recursion
    budget exactly when the described traversal yields [r]. *)
Theorem getPreviousNode_as_described (isValid : option node -> bool) :
  (forall n r,
     (exists fuel, LineCursor.getRightMostChild_ fuel n = Done r)
     <-> Described.RightMostDeepest n r)
  /\ (forall n r,
        (exists fuel,
           LineCursor.getPreviousNode_ fuel (Some n) isValid = Done r)
        <-> Described.Backward isValid n r).
Proof.
  split.
  - intros n r. split.
    + intros [fuel Hr]. eapply getRightMostChild_sound; eauto.
    + intros Hd. apply getRightMostChild_complete in Hd as [f0 Hf].
      exists f0. apply Hf. lia.
  - intros n r. split.
    + intros [fuel Hr]. eapply getPreviousNode_sound; eauto.
    + intros Hd. apply getPreviousNode_complete in Hd as [f0 Hf].
      exists f0. apply Hf. lia.
Qed.

Lemma perform_unset (op : Navigation.operation) (fuel : nat) :
  Navigation.perform op fuel (LineCursor.mkCursor (@None node))
  = Done (None, LineCursor.mkCursor None).
Proof. destruct op; reflexivity. Qed.

(** C6. With no current node, each of next, prev, in and out returns none
    and leaves the cursor as it was, whatever the recursion budget: the
    call returns, it does not fail. *)
Theorem unset_cursor_stays_unset (op : Navigation.operation) (fuel : nat) :
  Navigation.perform op fuel (LineCursor.mkCursor (@None node))
  = Done (None, LineCursor.mkCursor None).
Proof. apply perform_unset. Qed.

End Refinement.

(* ================================================================== *)
(** * The validity predicates *)

Section ValidityPredicates.
Context {node : Type} `{ASTNode.Ops node}.

Lemma types_eqb_eq (a b : ASTNode.types) :
  ASTNode.types_eqb a b = true <-> a = b.
Proof. destruct a, b; simpl; split; congruence. Qed.

Lemma validNode_statement_block (n : node) :
  LineCursor.validNode_ (Some n) = true <-> Navigation.statement_block n.
Proof.
  unfold LineCursor.validNode_, Navigation.statement_block,
    outputConnection_is_null.
  destruct (ASTNode.types_eqb (ASTNode.getType n) ASTNode.BLOCK) eqn:Et.
  - apply types_eqb_eq in Et.
    destruct (loc_outputConnection (ASTNode.getLocation n)) as [[c|]|];
      split; try discriminate; auto; intros [_ E]; discriminate.
  - split; [discriminate|]. intros [E _]. apply types_eqb_eq in E.
    congruence.
Qed.

Lemma validInNode_field_node (n : node) :
  LineCursor.validInNode_ (Some n) = true <-> Navigation.field_node n.
Proof.
  unfold LineCursor.validInNode_, Navigation.field_node.
  destruct (ASTNode.types_eqb (ASTNode.getType n) ASTNode.FIELD) eqn:Et.
  - apply types_eqb_eq in Et. split; auto.
  - split; [discriminate|]. intros E. apply types_eqb_eq in E. congruence.
Qed.

Lemma accepts_destination (op : Navigation.operation) (n : node) :
  Navigation.accepts op (Some n) = true <-> Navigation.destination op n.
Proof.
  destruct op; simpl;
    first [apply validNode_statement_block|apply validInNode_field_node].
Qed.

Lemma accepts_null (op : Navigation.operation) :
  Navigation.accepts op (@None node) = false.
Proof. destruct op; reflexivity. Qed.

(** Whenever a navigation call returns, the cursor is where it was or on
    a node the operation's predicate accepts. *)
Lemma perform_moves_to_destination (op : Navigation.operation) fuel c r c' :
  Navigation.perform op fuel c = Done (r, c') ->
  (r = None /\ c' = c)
  \/ exists m, r = Some m /\ c' = LineCursor.mkCursor (Some m)
               /\ Navigation.destination op m.
Proof.
  assert (Hfwd : forall isValid cur r,
    LineCursor.getNextNode_ fuel (Some cur) isValid = Done (Some r) ->
    isValid (Some r) = true).
  { clear. induction fuel as [|fuel IH]; intros isValid cur r;
      simpl; [discriminate|].
    destruct (isValid (LineCursor.in_or_next cur)) eqn:Ev.
    - intros [= E]. now rewrite E in Ev.
    - destruct (LineCursor.in_or_next cur) as [m|]; [apply IH|].
      destruct (LineCursor.findSiblingOrParent_ fuel (ASTNode.out cur))
        as [s|]; simpl; [|discriminate].
      destruct (isValid s) eqn:Es.
      + intros [= E]. now rewrite E in Es.
      + destruct s as [s|]; [apply IH|discriminate]. }
  assert (Hbwd : forall isValid cur r,
    LineCursor.getPreviousNode_ fuel (Some cur) isValid = Done (Some r) ->
    isValid (Some r) = true).
  { clear. induction fuel as [|fuel IH]; intros isValid cur r;
      simpl; [discriminate|].
    destruct (match ASTNode.prev cur with Some _ => _ | None => _ end)
      as [p|]; simpl; [|discriminate].
    destruct (isValid p) eqn:Ev.
    - intros [= E]. now rewrite E in Ev.
    - destruct p as [p|]; [apply IH|discriminate]. }
  destruct c as [[cur|]].
  - assert (Hmove : forall isValid walk,
      (forall m, walk = Done (Some m) -> isValid (Some m) = true) ->
      run_bind walk (fun newNode =>
        Done (LineCursor.moveTo (LineCursor.mkCursor (Some cur)) newNode))
      = Done (r, c') ->
      (r = None /\ c' = LineCursor.mkCursor (Some cur))
      \/ exists m, r = Some m /\ c' = LineCursor.mkCursor (Some m)
                   /\ isValid (Some m) = true).
    { intros isValid [[m|]|] Hv; simpl; try discriminate.
      - intros [= <- <-]. right. exists m. auto.
      - intros [= <- <-]. now left. }
    assert (Hend : forall (isValid : option node -> bool) (P : node -> Prop),
      (forall m, isValid (Some m) = true -> P m) ->
      (r = None /\ c' = LineCursor.mkCursor (Some cur))
      \/ (exists m, r = Some m /\ c' = LineCursor.mkCursor (Some m)
                    /\ isValid (Some m) = true) ->
      (r = None /\ c' = LineCursor.mkCursor (Some cur))
      \/ exists m, r = Some m /\ c' = LineCursor.mkCursor (Some m) /\ P m).
    { intros isValid P HP [Hr|(m & E1 & E2 & Hv)]; [now left|].
      right. exists m. auto. }
    destruct op; cbn [Navigation.perform Navigation.destination];
      unfold LineCursor.next, LineCursor.prev, LineCursor.in_,
        LineCursor.out;
      cbn [LineCursor.getCurNode LineCursor.curNode]; intros Hr.
    + apply (Hend LineCursor.validNode_);
        [intros m; apply validNode_statement_block|].
      eapply Hmove; [|exact Hr]; intros m; apply Hfwd.
    + apply (Hend LineCursor.validNode_);
        [intros m; apply validNode_statement_block|].
      eapply Hmove; [|exact Hr]; intros m; apply Hbwd.
    + apply (Hend LineCursor.validInNode_);
        [intros m; apply validInNode_field_node|].
      eapply Hmove; [|exact Hr]; intros m; apply Hfwd.
    + apply (Hend LineCursor.validInNode_);
        [intros m; apply validInNode_field_node|].
      eapply Hmove; [|exact Hr]; intros m; apply Hbwd.
  - destruct op; simpl; intros [= <- <-]; now left.
Qed.

End ValidityPredicates.

(* ================================================================== *)
(** * Navigation on an ordered tree *)

Section TreeNavigation.
Import Tree.

Lemma find_first_split {A : Type} (f : A -> bool) (l : list A) (m : A) :
  find f l = Some m ->
  exists a b, l = a ++ m :: b /\ f m = true /\ Forall (fun x => f x = false) a.
Proof.
  induction l as [|x l IH]; simpl; [discriminate|].
  destruct (f x) eqn:Ex.
  - intros [= <-]. exists [], l. auto.
  - intros Hm. destruct (IH Hm) as (a & b & -> & Hf & Ha).
    exists (x :: a), b. auto.
Qed.

(** With enough fuel, a navigation call from a position returns the first
    position the operation's predicate accepts among those it walks
    through, and moves the cursor there; or none, and the cursor stays. *)
Lemma perform_tree (op : Navigation.operation) (z : pos) :
  exists f0, forall fuel, f0 <= fuel ->
    Navigation.perform op fuel (LineCursor.mkCursor (Some z))
    = Done (LineCursor.moveTo (LineCursor.mkCursor (Some z))
              (find (fun m => Navigation.accepts op (Some m)) (ahead op z))).
Proof.
  destruct op; cbn [Navigation.perform Navigation.accepts ahead];
    unfold LineCursor.next, LineCursor.prev, LineCursor.in_, LineCursor.out;
    cbn [LineCursor.getCurNode LineCursor.curNode].
  - destruct (getNextNode_tree LineCursor.validNode_ eq_refl z) as [f0 Hf].
    exists f0. intros fuel Hle. now rewrite Hf.
  - destruct (getPreviousNode_tree LineCursor.validNode_ z) as [f0 Hf].
    exists f0. intros fuel Hle. now rewrite Hf.
  - destruct (getNextNode_tree LineCursor.validInNode_ eq_refl z)
      as [f0 Hf].
    exists f0. intros fuel Hle. now rewrite Hf.
  - destruct (getPreviousNode_tree LineCursor.validInNode_ z) as [f0 Hf].
    exists f0. intros fuel Hle. now rewrite Hf.
Qed.

(** The forward walk returns whatever the predicate does with null. *)
Lemma getNextNode_returns (isValid : option pos -> bool) (z : pos) :
  exists f0, forall fuel, f0 <= fuel ->
    exists r, LineCursor.getNextNode_ fuel (Some z) isValid = Done r.
Proof.
  destruct (isValid None) eqn:Hnull.
  - remember (after z) as l eqn:El. revert z El.
    induction l as [|m l IH]; intros z El.
    + exists 1. intros [|fuel] Hf; [lia|]. cbn [LineCursor.getNextNode_].
      destruct (LineCursor.in_or_next z) as [m|] eqn:Es.
      * apply in_or_next_tree in Es. rewrite <- El in Es. discriminate.
      * rewrite Hnull. eauto.
    + assert (Em : after m = l).
      { rewrite (after_tl z m); rewrite <- El; reflexivity. }
      destruct (IH m (eq_sym Em)) as [f1 IHm].
      exists (S f1). intros [|fuel] Hf; [lia|].
      cbn [LineCursor.getNextNode_].
      destruct (LineCursor.in_or_next z) as [m'|] eqn:Es.
      * apply in_or_next_tree in Es. rewrite <- El in Es.
        injection Es as <-.
        destruct (isValid (Some m)); [eauto|]. apply IHm. lia.
      * rewrite Hnull. eauto.
  - destruct (getNextNode_tree isValid Hnull z) as [f0 Hf].
    exists f0. intros fuel Hle. rewrite Hf by lia. eauto.
Qed.

Lemma first_accepted (op : Navigation.operation) (l : list pos) :
  let r := find (fun m => Navigation.accepts op (Some m)) l in
  (forall m, r = Some m ->
     Navigation.destination op m /\
     exists a b, l = a ++ m :: b /\
                 Forall (fun x => ~ Navigation.destination op x) a)
  /\ ((forall m, In m l -> ~ Navigation.destination op m) <-> r = None).
Proof.
  cbv zeta. split.
  - intros m Hm. apply find_first_split in Hm.
    destruct Hm as (a & b & -> & Hv & Ha). split.
    + now apply accepts_destination.
    + exists a, b. split; [reflexivity|].
      eapply Forall_impl; [|exact Ha]. cbv beta. intros x Hx Hd.
      apply accepts_destination in Hd. congruence.
  - split.
    + intros Hno.
      destruct (find _ l) as [m|] eqn:Ef; [|reflexivity].
      apply find_some in Ef. destruct Ef as [Hin Hv].
      apply accepts_destination in Hv. now destruct (Hno m Hin).
    + intros Hnone m Hin Hd. apply accepts_destination in Hd.
      pose proof (find_none _ _ Hnone m Hin) as Hf. cbv beta in Hf.
      congruence.
Qed.

(** What a navigation call from a position does, in full: with enough
    fuel it returns the first accepted position among those it walks
    through and moves the cursor there, and it returns none, leaving the
    cursor where it was, exactly when none of them is accepted. *)
Lemma perform_outcome (op : Navigation.operation) (z : pos) :
  exists f0, forall fuel, f0 <= fuel ->
    exists r c',
      Navigation.perform op fuel (LineCursor.mkCursor (Some z))
      = Done (r, c')
      /\ (forall m, r = Some m ->
            Navigation.destination op m
            /\ c' = LineCursor.mkCursor (Some m)
            /\ exists a b,
                ahead op z = a ++ m :: b
                /\ Forall (fun x => ~ Navigation.destination op x) a)
      /\ (r = None ->
          c' = LineCursor.mkCursor (Some z)
          /\ forall m, In m (ahead op z) -> ~ Navigation.destination op m)
      /\ ((forall m, In m (ahead op z) -> ~ Navigation.destination op m) ->
          r = None /\ c' = LineCursor.mkCursor (Some z)).
Proof.
  destruct (perform_tree op z) as [f0 Hf]. exists f0. intros fuel Hle.
  specialize (Hf fuel Hle).
  destruct (first_accepted op (ahead op z)) as [Hsome Hnone].
  cbv zeta in Hsome, Hnone.
  destruct (find (fun m => Navigation.accepts op (Some m)) (ahead op z))
    as [m|]; cbn [LineCursor.moveTo] in Hf;
    unfold LineCursor.setCurNode in Hf.
  - exists (Some m), (LineCursor.mkCursor (Some m)).
    split; [exact Hf|].
    destruct (Hsome m eq_refl) as (Hd & a & b & Hab & Hfa).
    split; [|split].
    + intros m' [= <-]. split; [exact Hd|]. split; [reflexivity|].
      exists a, b. auto.
    + discriminate.
    + intros Hno. apply Hnone in Hno. discriminate.
  - exists None, (LineCursor.mkCursor (Some z)).
    split; [exact Hf|]. split; [discriminate|]. split.
    + intros _. split; [reflexivity|]. now apply Hnone.
    + auto.
Qed.

(** C1. In every tree and from every position [z] of it, next() (and
    prev(), in the other direction) returns for every large enough
    recursion budget, and moves the cursor only to a statement block, that
    is a node of type BLOCK whose location has a null output connection:
    to the first one after [z] in pre-order (the nearest one before [z],
    for prev()), which it returns. It returns none exactly when no
    statement block lies after (before) [z], and then the cursor stays at
    [z]. *)
Theorem next_prev_reach_statement_blocks
  (T : tree) (l1 l2 : list pos) (z : pos) :
  preorder T = l1 ++ z :: l2 ->
  exists f0, forall fuel, f0 <= fuel ->
    (exists r c',
       LineCursor.next fuel (LineCursor.mkCursor (Some z)) = Done (r, c')
       /\ (forall m, r = Some m ->
             Navigation.statement_block m /\ In m l2
             /\ c' = LineCursor.mkCursor (Some m)
             /\ exists a b,
                 l2 = a ++ m :: b
                 /\ Forall (fun x => ~ Navigation.statement_block x) a)
       /\ (r = None ->
           c' = LineCursor.mkCursor (Some z)
           /\ forall m, In m l2 -> ~ Navigation.statement_block m)
       /\ ((forall m, In m l2 -> ~ Navigation.statement_block m) ->
           r = None /\ c' = LineCursor.mkCursor (Some z)))
    /\ (exists r c',
          LineCursor.prev fuel (LineCursor.mkCursor (Some z)) = Done (r, c')
          /\ (forall m, r = Some m ->
                Navigation.statement_block m /\ In m l1
                /\ c' = LineCursor.mkCursor (Some m)
                /\ exists a b,
                    l1 = a ++ m :: b
                    /\ Forall (fun x => ~ Navigation.statement_block x) b)
          /\ (r = None ->
              c' = LineCursor.mkCursor (Some z)
              /\ forall m, In m l1 -> ~ Navigation.statement_block m)
          /\ ((forall m, In m l1 -> ~ Navigation.statement_block m) ->
              r = None /\ c' = LineCursor.mkCursor (Some z))).
Proof.
  intros E. apply preorder_split in E. destruct E as [Hb Ha].
  destruct (perform_outcome Navigation.OpNext z) as [f1 H1].
  destruct (perform_outcome Navigation.OpPrev z) as [f2 H2].
  exists (Nat.max f1 f2). intros fuel Hle. split.
  - destruct (H1 fuel ltac:(lia)) as (r & c' & Hr & Hsome & Hnone & Hno).
    cbn [Navigation.perform Navigation.destination ahead] in *.
    rewrite Ha in *.
    exists r, c'. split; [exact Hr|]. split; [|split].
    + intros m Em. destruct (Hsome m Em) as (Hd & Hc & a & b & -> & Hfa).
      split; [exact Hd|]. split; [apply in_or_app; right; now left|].
      split; [exact Hc|]. exists a, b. auto.
    + exact Hnone.
    + exact Hno.
  - destruct (H2 fuel ltac:(lia)) as (r & c' & Hr & Hsome & Hnone & Hno).
    cbn [Navigation.perform Navigation.destination ahead] in *.
    rewrite Hb in *.
    exists r, c'. split; [exact Hr|]. split; [|split].
    + intros m Em. destruct (Hsome m Em) as (Hd & Hc & a & b & Hab & Hfa).
      assert (El1 : l1 = rev b ++ m :: rev a).
      { rewrite <- (rev_involutive l1), Hab, rev_app_distr.
        simpl. now rewrite <- app_assoc. }
      split; [exact Hd|].
      split; [rewrite El1; apply in_or_app; right; now left|].
      split; [exact Hc|]. exists (rev b), (rev a).
      split; [exact El1|]. apply Forall_rev. exact Hfa.
    + intros Er. destruct (Hnone Er) as [Hc Hall]. split; [exact Hc|].
      intros m Hin. apply Hall. now apply in_rev in Hin.
    + intros Hall. apply Hno. intros m Hin. apply Hall.
      now apply in_rev.
Qed.

(** From the repeat block of the example workspace. *)
Lemma next_prev_reach_statement_blocks_witness :
  preorder Example.workspace
  = [Example.at_ws; Example.at_stack] ++ Example.at_repeat
    :: [Example.at_times; Example.at_number; Example.at_num;
        Example.at_cond]
  /\ exists f0, forall fuel, f0 <= fuel ->
    (exists r c',
       LineCursor.next fuel (LineCursor.mkCursor (Some Example.at_repeat))
       = Done (r, c')
       /\ (forall m, r = Some m ->
             Navigation.statement_block m
             /\ In m [Example.at_times; Example.at_number; Example.at_num;
                      Example.at_cond]
             /\ c' = LineCursor.mkCursor (Some m)
             /\ exists a b,
                 [Example.at_times; Example.at_number; Example.at_num;
                  Example.at_cond] = a ++ m :: b
                 /\ Forall (fun x => ~ Navigation.statement_block x) a)
       /\ (r = None ->
           c' = LineCursor.mkCursor (Some Example.at_repeat)
           /\ forall m,
               In m [Example.at_times; Example.at_number; Example.at_num;
                     Example.at_cond] ->
               ~ Navigation.statement_block m)
       /\ ((forall m,
              In m [Example.at_times; Example.at_number; Example.at_num;
                    Example.at_cond] ->
              ~ Navigation.statement_block m) ->
           r = None /\ c' = LineCursor.mkCursor (Some Example.at_repeat)))
    /\ (exists r c',
          LineCursor.prev fuel (LineCursor.mkCursor (Some Example.at_repeat))
          = Done (r, c')
          /\ (forall m, r = Some m ->
                Navigation.statement_block m
                /\ In m [Example.at_ws; Example.at_stack]
                /\ c' = LineCursor.mkCursor (Some m)
                /\ exists a b,
                    [Example.at_ws; Example.at_stack] = a ++ m :: b
                    /\ Forall
                         (fun x => ~ Navigation.statement_block x) b)
          /\ (r = None ->
              c' = LineCursor.mkCursor (Some Example.at_repeat)
              /\ forall m, In m [Example.at_ws; Example.at_stack] ->
                           ~ Navigation.statement_block m)
          /\ ((forall m, In m [Example.at_ws; Example.at_stack] ->
                 ~ Navigation.statement_block m) ->
              r = None
              /\ c' = LineCursor.mkCursor (Some Example.at_repeat))).
Proof.
  split; [reflexivity|].
  exact (next_prev_reach_statement_blocks Example.workspace
           [Example.at_ws; Example.at_stack]
           [Example.at_times; Example.at_number; Example.at_num;
            Example.at_cond]
           Example.at_repeat eq_refl).
Defined.

(** C4. In every tree and from every position [z] of it, in() and out()
    return for every large enough recursion budget. in() moves the cursor
    only to a node of type FIELD: to the first one after [z] in pre-order,
    which it returns; it returns none exactly when no field follows [z],
    and then the cursor stays at [z]. out() moves the cursor only to a
    node of type FIELD that stands strictly before [z] in the pre-order
    listing: to the nearest one, which it returns; it returns none exactly
    when no field precedes [z], and then the cursor stays at [z]. *)
Theorem in_out_reach_fields (T : tree) (l1 l2 : list pos) (z : pos) :
  preorder T = l1 ++ z :: l2 ->
  exists f0, forall fuel, f0 <= fuel ->
    (exists r c',
       LineCursor.in_ fuel (LineCursor.mkCursor (Some z)) = Done (r, c')
       /\ (forall m, r = Some m ->
             ASTNode.getType m = ASTNode.FIELD
             /\ c' = LineCursor.mkCursor (Some m)
             /\ exists a b,
                 preorder T = l1 ++ z :: a ++ m :: b
                 /\ Forall (fun x => ASTNode.getType x <> ASTNode.FIELD) a)
       /\ (r = None ->
           c' = LineCursor.mkCursor (Some z)
           /\ forall m, In m l2 -> ASTNode.getType m <> ASTNode.FIELD)
       /\ ((forall m, In m l2 -> ASTNode.getType m <> ASTNode.FIELD) ->
           r = None /\ c' = LineCursor.mkCursor (Some z)))
    /\ (exists r c',
          LineCursor.out fuel (LineCursor.mkCursor (Some z)) = Done (r, c')
          /\ (forall m, r = Some m ->
                ASTNode.getType m = ASTNode.FIELD
                /\ c' = LineCursor.mkCursor (Some m)
                /\ exists a b,
                    preorder T = a ++ m :: b ++ z :: l2
                    /\ Forall
                         (fun x => ASTNode.getType x <> ASTNode.FIELD) b)
          /\ (r = None ->
              c' = LineCursor.mkCursor (Some z)
              /\ forall m, In m l1 -> ASTNode.getType m <> ASTNode.FIELD)
          /\ ((forall m, In m l1 -> ASTNode.getType m <> ASTNode.FIELD) ->
              r = None /\ c' = LineCursor.mkCursor (Some z))).
Proof.
  intros E. destruct (preorder_split T l1 z l2 E) as [Hb Ha].
  destruct (perform_outcome Navigation.OpIn z) as [f1 H1].
  destruct (perform_outcome Navigation.OpOut z) as [f2 H2].
  exists (Nat.max f1 f2). intros fuel Hle. split.
  - destruct (H1 fuel ltac:(lia)) as (r & c' & Hr & Hsome & Hnone & Hno).
    cbn [Navigation.perform Navigation.destination ahead] in *.
    unfold Navigation.field_node in *. rewrite Ha in *.
    exists r, c'. split; [exact Hr|]. split; [|split].
    + intros m Em. destruct (Hsome m Em) as (Hd & Hc & a & b & Hab & Hfa).
      split; [exact Hd|]. split; [exact Hc|]. exists a, b.
      split; [now rewrite E, Hab|exact Hfa].
    + exact Hnone.
    + exact Hno.
  - destruct (H2 fuel ltac:(lia)) as (r & c' & Hr & Hsome & Hnone & Hno).
    cbn [Navigation.perform Navigation.destination ahead] in *.
    unfold Navigation.field_node in *. rewrite Hb in *.
    exists r, c'. split; [exact Hr|]. split; [|split].
    + intros m Em. destruct (Hsome m Em) as (Hd & Hc & a & b & Hab & Hfa).
      assert (El1 : l1 = rev b ++ m :: rev a).
      { rewrite <- (rev_involutive l1), Hab, rev_app_distr.
        simpl. now rewrite <- app_assoc. }
      split; [exact Hd|]. split; [exact Hc|]. exists (rev b), (rev a).
      split.
      * rewrite E, El1, <- app_assoc. reflexivity.
      * apply Forall_rev. exact Hfa.
    + intros Er. destruct (Hnone Er) as [Hc Hall]. split; [exact Hc|].
      intros m Hin. apply Hall. now apply in_rev in Hin.
    + intros Hall. apply Hno. intros m Hin. apply Hall.
      now apply in_rev.
Qed.

(** From the value block of the example workspace: in() reaches its own
    field, out() the field of the repeat block. *)
Lemma in_out_reach_fields_witness :
  preorder Example.workspace
  = [Example.at_ws; Example.at_stack; Example.at_repeat; Example.at_times]
    ++ Example.at_number :: [Example.at_num; Example.at_cond]
  /\ exists f0, forall fuel, f0 <= fuel ->
    (exists r c',
       LineCursor.in_ fuel (LineCursor.mkCursor (Some Example.at_number))
       = Done (r, c')
       /\ (forall m, r = Some m ->
             ASTNode.getType m = ASTNode.FIELD
             /\ c' = LineCursor.mkCursor (Some m)
             /\ exists a b,
                 preorder Example.workspace
                 = [Example.at_ws; Example.at_stack; Example.at_repeat;
                    Example.at_times]
                   ++ Example.at_number :: a ++ m :: b
                 /\ Forall (fun x => ASTNode.getType x <> ASTNode.FIELD) a)
       /\ (r = None ->
           c' = LineCursor.mkCursor (Some Example.at_number)
           /\ forall m, In m [Example.at_num; Example.at_cond] ->
                        ASTNode.getType m <> ASTNode.FIELD)
       /\ ((forall m, In m [Example.at_num; Example.at_cond] ->
              ASTNode.getType m <> ASTNode.FIELD) ->
           r = None /\ c' = LineCursor.mkCursor (Some Example.at_number)))
    /\ (exists r c',
          LineCursor.out fuel (LineCursor.mkCursor (Some Example.at_number))
          = Done (r, c')
          /\ (forall m, r = Some m ->
                ASTNode.getType m = ASTNode.FIELD
                /\ c' = LineCursor.mkCursor (Some m)
                /\ exists a b,
                    preorder Example.workspace
                    = a ++ m :: b ++ Example.at_number
                      :: [Example.at_num; Example.at_cond]
                    /\ Forall
                         (fun x => ASTNode.getType x <> ASTNode.FIELD) b)
          /\ (r = None ->
              c' = LineCursor.mkCursor (Some Example.at_number)
              /\ forall m,
                  In m [Example.at_ws; Example.at_stack; Example.at_repeat;
                        Example.at_times] ->
                  ASTNode.getType m <> ASTNode.FIELD)
          /\ ((forall m,
                 In m [Example.at_ws; Example.at_stack; Example.at_repeat;
                       Example.at_times] ->
                 ASTNode.getType m <> ASTNode.FIELD) ->
              r = None
              /\ c' = LineCursor.mkCursor (Some Example.at_number))).
Proof.
  split; [reflexivity|].
  exact (in_out_reach_fields Example.workspace
           [Example.at_ws; Example.at_stack; Example.at_repeat;
            Example.at_times]
           [Example.at_num; Example.at_cond]
           Example.at_number eq_refl).
Defined.

(** C7. On every finite ordered tree, from every position [z] of it, the
    recursive functions of the cursor return once the recursion budget is
    large enough, whatever the predicate: findSiblingOrParent_ and
    getNextNode_, getRightMostChild_ and getPreviousNode_; and each of
    next, prev, in and out returns: it halts at the first position its
    predicate accepts among those after [z] (before [z], nearest first,
    for prev and out) and moves there, or reaches the end of the listing
    with none and leaves the cursor at [z]. *)
Theorem navigation_terminates
  (T : tree) (l1 l2 : list pos) (z : pos) (isValid : option pos -> bool) :
  preorder T = l1 ++ z :: l2 ->
  exists f0, forall fuel, f0 <= fuel ->
    (exists r, LineCursor.findSiblingOrParent_ fuel (Some z) = Done r)
    /\ (exists r, LineCursor.getNextNode_ fuel (Some z) isValid = Done r)
    /\ (exists r, LineCursor.getRightMostChild_ fuel z = Done r)
    /\ (exists r, LineCursor.getPreviousNode_ fuel (Some z) isValid = Done r)
    /\ (forall op,
          exists r,
            Navigation.perform op fuel (LineCursor.mkCursor (Some z))
            = Done (r, match r with
                       | Some m => LineCursor.mkCursor (Some m)
                       | None => LineCursor.mkCursor (Some z)
                       end)
            /\ r = find (fun m => Navigation.accepts op (Some m))
                     match op with
                     | Navigation.OpNext | Navigation.OpIn => l2
                     | Navigation.OpPrev | Navigation.OpOut => rev l1
                     end).
Proof.
  intros E. apply preorder_split in E. destruct E as [Hb Ha].
  destruct (getNextNode_returns isValid z) as [f1 H1].
  destruct (getRightMostChild_tree (fst z) (snd z)) as [f2 H2].
  destruct (getPreviousNode_tree isValid z) as [f3 H3].
  destruct (perform_tree Navigation.OpNext z) as [f4 H4].
  destruct (perform_tree Navigation.OpPrev z) as [f5 H5].
  destruct (perform_tree Navigation.OpIn z) as [f6 H6].
  destruct (perform_tree Navigation.OpOut z) as [f7 H7].
  exists (2 + List.length (snd z) + f1 + f2 + f3 + f4 + f5 + f6 + f7).
  intros fuel Hle. repeat split.
  - destruct z as [t c]. rewrite findSiblingOrParent_tree; [eauto|].
    simpl in Hle. lia.
  - apply H1. lia.
  - rewrite <- surjective_pairing in H2. rewrite H2 by lia. eauto.
  - rewrite H3 by lia. eauto.
  - intros op.
    assert (Hop : Navigation.perform op fuel (LineCursor.mkCursor (Some z))
      = Done (LineCursor.moveTo (LineCursor.mkCursor (Some z))
                (find (fun m => Navigation.accepts op (Some m))
                      (ahead op z))))
      by (destruct op; [apply H4|apply H5|apply H6|apply H7]; lia).
    assert (Eahead : ahead op z
      = match op with
        | Navigation.OpNext | Navigation.OpIn => l2
        | Navigation.OpPrev | Navigation.OpOut => rev l1
        end) by (destruct op; assumption).
    rewrite <- Eahead.
    exists (find (fun m => Navigation.accepts op (Some m)) (ahead op z)).
    split; [|reflexivity]. rewrite Hop.
    now destruct (find _ (ahead op z)).
Qed.

(** From the if block of the example workspace, with the predicate of
    next and prev. *)
Lemma navigation_terminates_witness :
  preorder Example.workspace
  = [Example.at_ws; Example.at_stack; Example.at_repeat; Example.at_times;
     Example.at_number; Example.at_num] ++ Example.at_cond :: []
  /\ exists f0, forall fuel, f0 <= fuel ->
    (exists r,
       LineCursor.findSiblingOrParent_ fuel (Some Example.at_cond) = Done r)
    /\ (exists r,
          LineCursor.getNextNode_ fuel (Some Example.at_cond)
            LineCursor.validNode_ = Done r)
    /\ (exists r,
          LineCursor.getRightMostChild_ fuel Example.at_cond = Done r)
    /\ (exists r,
          LineCursor.getPreviousNode_ fuel (Some Example.at_cond)
            LineCursor.validNode_ = Done r)
    /\ (forall op,
          exists r,
            Navigation.perform op fuel
              (LineCursor.mkCursor (Some Example.at_cond))
            = Done (r, match r with
                       | Some m => LineCursor.mkCursor (Some m)
                       | None => LineCursor.mkCursor (Some Example.at_cond)
                       end)
            /\ r = find (fun m => Navigation.accepts op (Some m))
                     match op with
                     | Navigation.OpNext | Navigation.OpIn => []
                     | Navigation.OpPrev | Navigation.OpOut =>
                         rev [Example.at_ws; Example.at_stack;
                              Example.at_repeat; Example.at_times;
                              Example.at_number; Example.at_num]
                     end).
Proof.
  split; [reflexivity|].
  exact (navigation_terminates Example.workspace
           [Example.at_ws; Example.at_stack; Example.at_repeat;
            Example.at_times; Example.at_number; Example.at_num]
           [] Example.at_cond LineCursor.validNode_ eq_refl).
Defined.





(** X2. On a tree, getRightMostChild_ returns, once the recursion budget
    is large enough, the last position of the subtree of its argument in
    pre-order; for a leaf, the argument itself. *)
Theorem getRightMostChild_reaches_last (z : pos) :
  exists f0, forall fuel, f0 <= fuel ->
    LineCursor.getRightMostChild_ fuel z
    = Done (last (locs (fst z) (snd z)) z).
Proof.
  destruct z as [t c]. apply getRightMostChild_tree.
Qed.

End TreeNavigation.


(* ================================================================== *)
(** * The invariant of the cursor *)

Section Invariant.
Import Tree.

(** C5. After any of next, prev, in and out, curNode is exactly what it
    was before the call, or it is a node that satisfies the validity
    predicate of the operation: a BLOCK whose location has a null output
    connection for next and prev, a FIELD for in and out. This holds of
    every call that returns, over every implementation of the node
    interface; and on an ordered tree the call does return, for every
    large enough recursion budget. *)
Theorem curNode_unchanged_or_valid :
  (forall (node : Type) (ops : ASTNode.Ops node)
          (op : Navigation.operation) (fuel : nat)
          (c c' : LineCursor.Cursor) (r : option node),
      Navigation.perform op fuel c = Done (r, c') ->
      c' = c
      \/ exists m, LineCursor.curNode c' = Some m
                   /\ Navigation.destination op m)
  /\ (forall (op : Navigation.operation)
             (c : @LineCursor.Cursor pos),
        exists f0, forall fuel, f0 <= fuel ->
          exists r c',
            Navigation.perform op fuel c = Done (r, c')
            /\ (c' = c
                \/ exists m, LineCursor.curNode c' = Some m
                             /\ Navigation.destination op m)).
Proof.
  assert (Hany : forall (node : Type) (ops : ASTNode.Ops node)
          (op : Navigation.operation) (fuel : nat)
          (c c' : LineCursor.Cursor) (r : option node),
      Navigation.perform op fuel c = Done (r, c') ->
      c' = c
      \/ exists m, LineCursor.curNode c' = Some m
                   /\ Navigation.destination op m).
  { intros node ops op fuel c c' r Hr.
    apply perform_moves_to_destination in Hr.
    destruct Hr as [[_ E]|(m & _ & -> & Hd)]; [now left|].
    right. exists m. auto. }
  split; [exact Hany|].
  intros op [[z|]].
  - destruct (perform_tree op z) as [f0 Hf]. exists f0. intros fuel Hle.
    specialize (Hf fuel Hle).
    destruct (LineCursor.moveTo (LineCursor.mkCursor (Some z))
                (find (fun m => Navigation.accepts op (Some m))
                      (ahead op z))) as [r c'] eqn:Em.
    exists r, c'. split; [exact Hf|]. eapply Hany; eauto.
  - exists 0. intros fuel _. exists None, (LineCursor.mkCursor None).
    split; [apply perform_unset|now left].
Qed.

End Invariant.

(* ================================================================== *)
(** * What the speaker says *)

Section Announcements.
Import ASTNode Tree.
#[local] Open Scope string_scope.
Context {node : Type} `{ASTNode.Ops node}.
Variables Blockly_INPUT_VALUE Blockly_NEXT_STATEMENT : Z.

Lemma name_is_no_number (t : LocType) (name : string) (k : Z) :
  type_is_name t name = true -> type_is_number t k = false.
Proof. destruct t; simpl; congruence. Qed.

(** One of the five ways in which nodeToText_ reads the source block. *)
Ltac reads_source_block :=
  first
    [ left; split; [reflexivity|discriminate]
    | right; left; reflexivity
    | right; right; left; reflexivity
    | right; right; right; left; reflexivity
    | right; right; right; right; reflexivity ].

(** A case of nodeToText_ whose outcome is known. *)
Ltac speaker_leaf :=
  let Hfield := fresh "Hfield" in
  let Hres := fresh "Hres" in
  let HR := fresh "HR" in
  let HP := fresh "HP" in
  let HQ := fresh "HQ" in
  split; [|intros Hfield];
  (split;
   [ intros Hres;
     lazymatch type of Hres with
     | ex _ => destruct Hres as [? Hres]
     | _ => idtac
     end;
     split;
     [ intros HR; first [discriminate|congruence|intuition congruence]
     | let old' := fresh "old" in
       let sb' := fresh "sb" in
       let E1 := fresh "E" in
       let E2 := fresh "E" in
       let E3 := fresh "E" in
       let E4 := fresh "E" in
       let E5 := fresh "E" in
       intros old' E1 E2 [sb' [E3 E4]] E5;
       first [discriminate|congruence] ]
   | intros [HP HQ];
     first
       [ discriminate
       | eexists; reflexivity
       | exfalso; apply HP; [reads_source_block|reflexivity]
       | exfalso; eapply HQ;
         [ reflexivity | discriminate
         | eexists; split; [reflexivity|eassumption]
         | reflexivity | eassumption ]
       | let f := fresh "f" in
         let Ef := fresh "E" in
         exfalso; destruct (Hfield eq_refl) as [f Ef]; congruence ] ]).

(** C9. For a current node of type BLOCK whose location is a conditional
    block (its kind is 'controls_if'), and for every old node, present or
    not, the text is exactly the fixed phrase, whatever the block
    contains. *)
Theorem conditional_block_text (oldNode : option node) (curNode : node) :
  getType curNode = BLOCK ->
  Speaker.conditional curNode ->
  Speaker.nodeToText_ Blockly_INPUT_VALUE Blockly_NEXT_STATEMENT
    oldNode curNode
  = Ok "if 6 = 5".
Proof.
  unfold Speaker.conditional, Speaker.nodeToText_.
  intros -> ->. reflexivity.
Qed.

(** C8, amended. For every old node, present or not, the text of a
    current node of type WORKSPACE whose location is not a connection of
    the input-value or next-statement kind (it is a coordinate) is the
    fixed phrase with the space it starts with. *)
Theorem workspace_text (oldNode : option node) (curNode : node) :
  getType curNode = WORKSPACE ->
  ~ Speaker.input_value_slot Blockly_INPUT_VALUE curNode ->
  ~ Speaker.next_statement_connection Blockly_NEXT_STATEMENT curNode ->
  Speaker.nodeToText_ Blockly_INPUT_VALUE Blockly_NEXT_STATEMENT
    oldNode curNode
  = Ok " a workspace coordinate".
Proof.
  unfold Speaker.input_value_slot, Speaker.next_statement_connection,
    Speaker.nodeToText_.
  intros -> Hi Hn. cbn [types_eqb].
  destruct (type_is_number _ Blockly_INPUT_VALUE); [now destruct Hi|].
  destruct (type_is_number _ Blockly_NEXT_STATEMENT); [now destruct Hn|].
  reflexivity.
Qed.

(** C10. nodeToText_ calls a method of what getSourceBlock() returns
    without checking it for null: of the current node when it is a BLOCK
    that is not a conditional, an OUTPUT or a PREVIOUS node, or when its
    location is an input-value slot or a next-statement connection; and of
    the old node when the current node is a BLOCK that is not a
    conditional, its source block has no surrounding parent, and an old
    node is given. The call throws on null exactly when one of these
    source blocks is null; and, where a FIELD node has a field for its
    location, the call returns a text exactly under this precondition. *)
Theorem nodeToText_needs_source_blocks
  (oldNode : option node) (curNode : node) :
  (Speaker.nodeToText_ Blockly_INPUT_VALUE Blockly_NEXT_STATEMENT
     oldNode curNode <> Throw NullDeref
   <-> Speaker.describe_precondition
         Blockly_INPUT_VALUE Blockly_NEXT_STATEMENT oldNode curNode)
  /\ (Speaker.field_has_text curNode ->
      ((exists text,
          Speaker.nodeToText_ Blockly_INPUT_VALUE Blockly_NEXT_STATEMENT
            oldNode curNode = Ok text)
       <-> Speaker.describe_precondition
             Blockly_INPUT_VALUE Blockly_NEXT_STATEMENT oldNode curNode)).
Proof.
  pose proof (name_is_no_number (loc_type (getLocation curNode))
                "controls_if" Blockly_INPUT_VALUE) as Hni.
  pose proof (name_is_no_number (loc_type (getLocation curNode))
                "controls_if" Blockly_NEXT_STATEMENT) as Hnn.
  unfold Speaker.describe_precondition, Speaker.reads_source_block,
    Speaker.non_nested, Speaker.conditional, Speaker.input_value_slot,
    Speaker.next_statement_connection, Speaker.field_has_text,
    Speaker.nodeToText_.
  destruct (type_is_name (loc_type (getLocation curNode)) "controls_if")
    eqn:Ec;
    [rewrite (Hni eq_refl), (Hnn eq_refl)
    |destruct (type_is_number (loc_type (getLocation curNode))
                 Blockly_INPUT_VALUE) eqn:Ei;
     destruct (type_is_number (loc_type (getLocation curNode))
                 Blockly_NEXT_STATEMENT) eqn:En];
    clear Hni Hnn;
    destruct (getType curNode) eqn:Et; cbn [types_eqb];
    destruct (getSourceBlock curNode) as [sb|] eqn:Es;
    cbn [deref outcome_bind].
  all: try solve [speaker_leaf].
  all: try solve
    [ destruct (getLocation curNode) as [b|c|f|wc] eqn:El;
      cbn [loc_getDisplayText_ outcome_bind]; speaker_leaf ].
  all: destruct (getSurroundParent sb) as [sp|] eqn:Ep;
    cbn [Speaker.truthy outcome_bind]; try solve [speaker_leaf].
  all: destruct oldNode as [old|]; try solve [speaker_leaf].
  all: destruct (getSourceBlock old) as [osb|] eqn:Eo;
    cbn [deref outcome_bind]; try solve [speaker_leaf].
  all: destruct (getSurroundParent osb) as [osp|] eqn:Eop;
    cbn [Speaker.truthy outcome_bind]; speaker_leaf.
Qed.

(** X3. For a current node of type FIELD whose location is a field, and
    for every old node, present or not, the text is the display text of
    the field followed by one space. *)
Theorem field_node_text (oldNode : option node) (curNode : node) (f : Field) :
  getType curNode = FIELD ->
  getLocation curNode = LocField f ->
  Speaker.nodeToText_ Blockly_INPUT_VALUE Blockly_NEXT_STATEMENT
    oldNode curNode
  = Ok (getDisplayText_ f ++ " ").
Proof.
  unfold Speaker.nodeToText_. intros -> ->. reflexivity.
Qed.

End Announcements.

Section OnTheExample.
Import ASTNode Tree.
#[local] Open Scope string_scope.

(** C9 on the if block of the example workspace, coming from the repeat
    block; the connection kinds are those of Blockly, 1 and 3. *)
Lemma conditional_block_text_witness :
  getType Example.at_cond = BLOCK
  /\ Speaker.conditional Example.at_cond
  /\ Speaker.nodeToText_ 1 3 (Some Example.at_repeat) Example.at_cond
     = Ok "if 6 = 5".
Proof.
  split; [reflexivity|]. split; [reflexivity|].
  apply (conditional_block_text 1 3 (Some Example.at_repeat)
           Example.at_cond);
    reflexivity.
Defined.

(** C8, as stated, fails: on the workspace node of the example, a node of
    type WORKSPACE at a coordinate, the text starts with a space. *)
Lemma workspace_text_is_not_bare :
  getType Example.at_ws = WORKSPACE
  /\ Speaker.nodeToText_ 1 3 None Example.at_ws
     = Ok " a workspace coordinate"
  /\ Speaker.nodeToText_ 1 3 None Example.at_ws
     <> Ok "a workspace coordinate".
Proof.
  split; [reflexivity|]. split; [reflexivity|]. discriminate.
Qed.

(** C8 as amended, on the workspace node of the example. *)
Lemma workspace_text_witness :
  getType Example.at_ws = WORKSPACE
  /\ ~ Speaker.input_value_slot 1 Example.at_ws
  /\ ~ Speaker.next_statement_connection 3 Example.at_ws
  /\ Speaker.nodeToText_ 1 3 (Some Example.at_stack) Example.at_ws
     = Ok " a workspace coordinate".
Proof.
  assert (Hi : ~ Speaker.input_value_slot 1 Example.at_ws)
    by (intros E; discriminate E).
  assert (Hn : ~ Speaker.next_statement_connection 3 Example.at_ws)
    by (intros E; discriminate E).
  split; [reflexivity|]. split; [exact Hi|]. split; [exact Hn|].
  exact (workspace_text 1 3 (Some Example.at_stack) Example.at_ws
           eq_refl Hi Hn).
Defined.

(** C2 on the positions of a tree, with the predicate of next and prev. *)
Lemma getNextNode_as_described_witness :
  LineCursor.validNode_ (@None pos) = false
  /\ (forall a r,
        (exists fuel, LineCursor.findSiblingOrParent_ fuel a = Done r)
        <-> Described.Ascend a r)
  /\ (forall (n : pos) r,
        (exists fuel,
           LineCursor.getNextNode_ fuel (Some n) LineCursor.validNode_
           = Done r)
        <-> Described.Forward LineCursor.validNode_ n r).
Proof.
  split; [reflexivity|].
  exact (getNextNode_as_described LineCursor.validNode_ eq_refl).
Defined.

(** X3 on the field of the repeat block, coming from the block. *)
Lemma field_node_text_witness :
  getType Example.at_times = FIELD
  /\ getLocation Example.at_times = LocField (mkField "repeat" "repeat")
  /\ Speaker.nodeToText_ 1 3 (Some Example.at_repeat) Example.at_times
     = Ok "repeat ".
Proof.
  split; [reflexivity|]. split; [reflexivity|].
  exact (field_node_text 1 3 (Some Example.at_repeat) Example.at_times
           (mkField "repeat" "repeat") eq_refl eq_refl).
Defined.

(** The cursor and the speaker, run on the example workspace. *)

Example preorder_of_the_workspace :
  preorder Example.workspace
  = [Example.at_ws; Example.at_stack; Example.at_repeat; Example.at_times;
     Example.at_number; Example.at_num; Example.at_cond].
Proof. reflexivity. Qed.

Example next_skips_the_value_block :
  LineCursor.next 10 (LineCursor.mkCursor (Some Example.at_repeat))
  = Done (Some Example.at_cond, LineCursor.mkCursor (Some Example.at_cond)).
Proof. reflexivity. Qed.

Example next_at_the_last_block :
  LineCursor.next 10 (LineCursor.mkCursor (Some Example.at_cond))
  = Done (None, LineCursor.mkCursor (Some Example.at_cond)).
Proof. reflexivity. Qed.

Example prev_from_the_if_block :
  LineCursor.prev 10 (LineCursor.mkCursor (Some Example.at_cond))
  = Done (Some Example.at_repeat,
          LineCursor.mkCursor (Some Example.at_repeat)).
Proof. reflexivity. Qed.

Example prev_with_a_small_budget :
  LineCursor.prev 2 (LineCursor.mkCursor (Some Example.at_cond))
  = OutOfFuel.
Proof. reflexivity. Qed.

Example in_then_in :
  LineCursor.in_ 10 (LineCursor.mkCursor (Some Example.at_repeat))
  = Done (Some Example.at_times, LineCursor.mkCursor (Some Example.at_times))
  /\ LineCursor.in_ 10 (LineCursor.mkCursor (Some Example.at_times))
     = Done (Some Example.at_num, LineCursor.mkCursor (Some Example.at_num)).
Proof. split; reflexivity. Qed.

Example out_from_the_first_field :
  LineCursor.out 10 (LineCursor.mkCursor (Some Example.at_times))
  = Done (None, LineCursor.mkCursor (Some Example.at_times)).
Proof. reflexivity. Qed.

Example text_of_a_top_block_after_the_workspace :
  Speaker.nodeToText_ 1 3 (Some Example.at_ws) Example.at_repeat
  = Throw NullDeref
  /\ Speaker.nodeToText_ 1 3 (Some Example.at_stack) Example.at_repeat
     = Ok "repeat 10 times".
Proof. split; reflexivity. Qed.

End OnTheExample.

(* ================================================================== *)
(** * The walks over any implementation of the nodes *)

Section WalksOverAnyNodes.
Context {node : Type} `{ASTNode.Ops node}.

Lemma getNextNode_accepted fuel :
  forall (isValid : option node -> bool) n r,
    LineCursor.getNextNode_ fuel n isValid = Done (Some r) ->
    isValid (Some r) = true.
Proof.
  induction fuel as [|fuel IH]; intros isValid n r; simpl; [discriminate|].
  destruct n as [cur|]; [|discriminate].
  destruct (isValid (LineCursor.in_or_next cur)) eqn:Ev.
  - intros [= E]. now rewrite E in Ev.
  - destruct (LineCursor.in_or_next cur) as [m|]; [apply IH|].
    destruct (LineCursor.findSiblingOrParent_ fuel (ASTNode.out cur))
      as [s|]; simpl; [|discriminate].
    destruct (isValid s) eqn:Es.
    + intros [= E]. now rewrite E in Es.
    + destruct s as [s|]; [apply IH|discriminate].
Qed.

Lemma getPreviousNode_accepted fuel :
  forall (isValid : option node -> bool) n r,
    LineCursor.getPreviousNode_ fuel n isValid = Done (Some r) ->
    isValid (Some r) = true.
Proof.
  induction fuel as [|fuel IH]; intros isValid n r; simpl; [discriminate|].
  destruct n as [cur|]; [|discriminate].
  destruct (match ASTNode.prev cur with Some _ => _ | None => _ end)
    as [p|]; simpl; [|discriminate].
  destruct (isValid p) eqn:Ev.
  - intros [= E]. now rewrite E in Ev.
  - destruct p as [p|]; [apply IH|discriminate].
Qed.

(** X4. Whatever the implementation of the nodes, the predicate handed
    in and the recursion budget, a node that getNextNode_ or
    getPreviousNode_ returns is one the predicate accepts: a rejected node
    is never returned. *)
Theorem walks_return_accepted_nodes :
  (forall fuel (isValid : option node -> bool) n r,
     LineCursor.getNextNode_ fuel n isValid = Done (Some r) ->
     isValid (Some r) = true)
  /\ (forall fuel (isValid : option node -> bool) n r,
        LineCursor.getPreviousNode_ fuel n isValid = Done (Some r) ->
        isValid (Some r) = true).
Proof.
  split; intros fuel isValid n r.
  - apply getNextNode_accepted.
  - apply getPreviousNode_accepted.
Qed.

Lemma lastSibling_is_last fuel :
  forall n l,
    LineCursor.lastSibling fuel n = Done l -> ASTNode.next l = None.
Proof.
  induction fuel as [|fuel IH]; intros n l; simpl; [discriminate|].
  destruct (ASTNode.next n) as [n'|] eqn:En; [apply IH|].
  intros [= <-]. exact En.
Qed.

(** X5. Whatever the implementation of the nodes, the node that
    getRightMostChild_ returns has no child; it is the argument itself
    when the argument has no child, and otherwise a node with no next
    sibling. *)
Theorem getRightMostChild_returns_a_leaf (fuel : nat) (n r : node) :
  LineCursor.getRightMostChild_ fuel n = Done r ->
  ASTNode.in_ r = None
  /\ (ASTNode.in_ n = None -> r = n)
  /\ (ASTNode.in_ n <> None -> ASTNode.next r = None).
Proof.
  revert n. induction fuel as [|fuel IH]; intros n; simpl; [discriminate|].
  destruct (ASTNode.in_ n) as [c|] eqn:Ei.
  - destruct (LineCursor.lastSibling fuel c) as [l|] eqn:El; simpl;
      [|discriminate].
    intros Hr. destruct (IH l Hr) as (Hleaf & Hself & Hlast).
    split; [exact Hleaf|]. split; [discriminate|]. intros _.
    destruct (ASTNode.in_ l) eqn:Eil.
    + apply Hlast. discriminate.
    + rewrite (Hself eq_refl). eapply lastSibling_is_last; eauto.
  - intros [= <-]. split; [exact Ei|]. split; [reflexivity|].
    intros Hne. now destruct Hne.
Qed.

(** X6. Where the links of the nodes close a cycle the forward walk does
    not return: if every node of a set has, as in() or else next(), a node
    of the set that the predicate rejects, then getNextNode_ started in
    the set has not returned within any recursion budget. *)
Theorem getNextNode_never_leaves_a_cycle
  (isValid : option node -> bool) (inside : node -> Prop) :
  (forall n, inside n ->
     exists m, LineCursor.in_or_next n = Some m
               /\ inside m /\ isValid (Some m) = false) ->
  forall fuel n,
    inside n -> LineCursor.getNextNode_ fuel (Some n) isValid = OutOfFuel.
Proof.
  intros Hclosed. induction fuel as [|fuel IH]; intros n Hn; simpl;
    [reflexivity|].
  destruct (Hclosed n Hn) as (m & -> & Hm & ->). now apply IH.
Qed.

End WalksOverAnyNodes.

Section OnOtherNodes.
Import Tree.

(** X5 on the repeat block of the example workspace: the right-most
    deepest node under it is the field of the value block. *)
Lemma getRightMostChild_returns_a_leaf_witness :
  LineCursor.getRightMostChild_ 10 Example.at_repeat = Done Example.at_num
  /\ ASTNode.in_ Example.at_num = None
  /\ (ASTNode.in_ Example.at_repeat = None ->
      Example.at_num = Example.at_repeat)
  /\ (ASTNode.in_ Example.at_repeat <> None ->
      ASTNode.next Example.at_num = None).
Proof.
  split; [reflexivity|].
  exact (getRightMostChild_returns_a_leaf 10 Example.at_repeat
           Example.at_num eq_refl).
Defined.

(** X6 on the node that is its own child, with the predicate of next. *)
Lemma getNextNode_never_leaves_a_cycle_witness :
  (forall n : unit, True ->
     exists m,
       @LineCursor.in_or_next unit Cyclic.loop_ops n = Some m
       /\ True
       /\ @LineCursor.validNode_ unit Cyclic.loop_ops (Some m) = false)
  /\ forall fuel,
       @LineCursor.getNextNode_ unit Cyclic.loop_ops fuel (Some tt)
         (@LineCursor.validNode_ unit Cyclic.loop_ops)
       = OutOfFuel.
Proof.
  assert (Hclosed : forall n : unit, True ->
     exists m,
       @LineCursor.in_or_next unit Cyclic.loop_ops n = Some m
       /\ True
       /\ @LineCursor.validNode_ unit Cyclic.loop_ops (Some m) = false).
  { intros n _. exists n. repeat split. }
  split; [exact Hclosed|].
  exact (fun fuel =>
           @getNextNode_never_leaves_a_cycle unit Cyclic.loop_ops
             (@LineCursor.validNode_ unit Cyclic.loop_ops)
             (fun _ => True) Hclosed fuel tt I).
Defined.

End OnOtherNodes.

(* ================================================================== *)
(** * Calls in a row on an ordered tree *)

Section CallsInARow.
Import Tree.

(** Every position is in the listing of its tree, between what is before
    it and what is after it. *)
Lemma pos_in_its_tree (z : pos) :
  preorder (root z) = rev (before z) ++ z :: after z.
Proof. destruct z as [t c]. apply root_split. Qed.

(** What an operation walks through from a position it has reached is the
    rest of what it walked through before. *)
Lemma ahead_rest (op : Navigation.operation) (z m : pos) (a b : list pos) :
  ahead op z = a ++ m :: b -> ahead op m = b.
Proof.
  intros E. pose proof (pos_in_its_tree z) as Ez.
  destruct op; cbn [ahead] in E |- *.
  - rewrite E in Ez.
    change (rev (before z) ++ z :: a ++ m :: b)
      with (rev (before z) ++ (z :: a) ++ m :: b) in Ez.
    rewrite app_assoc in Ez. apply preorder_split in Ez. apply Ez.
  - rewrite E, rev_app_distr in Ez. cbn [rev] in Ez.
    rewrite <- !app_assoc in Ez. cbn [app] in Ez.
    apply preorder_split in Ez. destruct Ez as [Ez _].
    now rewrite rev_involutive in Ez.
  - rewrite E in Ez.
    change (rev (before z) ++ z :: a ++ m :: b)
      with (rev (before z) ++ (z :: a) ++ m :: b) in Ez.
    rewrite app_assoc in Ez. apply preorder_split in Ez. apply Ez.
  - rewrite E, rev_app_distr in Ez. cbn [rev] in Ez.
    rewrite <- !app_assoc in Ez. cbn [app] in Ez.
    apply preorder_split in Ez. destruct Ez as [Ez _].
    now rewrite rev_involutive in Ez.
Qed.



Lemma filter_all_false {A : Type} (f : A -> bool) (l : list A) :
  Forall (fun x => f x = false) l -> filter f l = [].
Proof.
  induction 1 as [|x l Hx _ IH]; simpl; [reflexivity|]. now rewrite Hx.
Qed.

Lemma find_none_filter {A : Type} (f : A -> bool) (l : list A) :
  find f l = None -> filter f l = [].
Proof.
  induction l as [|x l IH]; simpl; [reflexivity|].
  destruct (f x); [discriminate|exact IH].
Qed.

Lemma last_cons_default {A : Type} (x d : A) (l : list A) :
  last (x :: l) d = last l x.
Proof.
  destruct l as [|y l]; [reflexivity|].
  change (last (x :: y :: l) d) with (last (y :: l) d).
  apply last_nonempty. discriminate.
Qed.

(** Calling an operation again and again from a position: the calls return
    the accepted positions it walks through, one after the other, and the
    call after the last of them returns none. *)
Lemma press_tree (op : Navigation.operation) (n : nat) :
  forall z : pos,
    List.length (ahead op z) <= n ->
    exists f0, forall fuel, f0 <= fuel ->
      let hits := filter (fun m => Navigation.accepts op (Some m))
                         (ahead op z) in
      Keys.press op fuel (List.length hits) (LineCursor.mkCursor (Some z))
      = Done (map Some hits, LineCursor.mkCursor (Some (last hits z)))
      /\ Navigation.perform op fuel
           (LineCursor.mkCursor (Some (last hits z)))
         = Done (None, LineCursor.mkCursor (Some (last hits z))).
Proof.
  induction n as [|n IH]; intros z Hlen;
    destruct (perform_tree op z) as [f1 H1];
    destruct (find (fun m => Navigation.accepts op (Some m)) (ahead op z))
      as [m|] eqn:Ef.
  - apply find_some in Ef. destruct Ef as [Hin _].
    destruct (ahead op z); [destruct Hin|simpl in Hlen; lia].
  - exists f1. intros fuel Hle. cbv zeta.
    rewrite (find_none_filter _ _ Ef). cbn [List.length last Keys.press].
    rewrite H1 by lia. split; reflexivity.
  - apply find_first_split in Ef. destruct Ef as (a & b & E & Hv & Ha).
    pose proof (ahead_rest op z m a b E) as Em.
    destruct (IH m) as [f2 H2].
    { rewrite Em. rewrite E, length_app in Hlen. simpl in Hlen. lia. }
    exists (Nat.max f1 f2). intros fuel Hle. cbv zeta.
    specialize (H2 fuel ltac:(lia)). cbv zeta in H2. rewrite Em in H2.
    rewrite E, filter_app, (filter_all_false _ _ Ha).
    cbn [app filter]. rewrite Hv. cbn [List.length map].
    rewrite last_cons_default. cbn [Keys.press].
    rewrite H1 by lia. cbn [LineCursor.moveTo].
    unfold LineCursor.setCurNode.
    destruct H2 as [H2 H3]. rewrite H2. split; [reflexivity|exact H3].
  - exists f1. intros fuel Hle. cbv zeta.
    rewrite (find_none_filter _ _ Ef). cbn [List.length last Keys.press].
    rewrite H1 by lia. split; reflexivity.
Qed.

(** X7. On every tree and from every position [z] of it, calling the same
    operation again and again stops, call after call, at each position
    its predicate accepts after [z] (before [z], nearest first, for prev
    and out), in the order of the listing and each one once; the next call
    returns none and the cursor stays on the last of them. So next()
    reaches every statement block below the cursor, and in() every
    field. *)
Theorem pressing_a_key_stops_at_every_accepted_position
  (op : Navigation.operation) (T : tree) (l1 l2 : list pos) (z : pos) :
  preorder T = l1 ++ z :: l2 ->
  NoDup (z :: Keys.stops op l1 l2)
  /\ exists f0, forall fuel, f0 <= fuel ->
       Keys.press op fuel (List.length (Keys.stops op l1 l2))
         (LineCursor.mkCursor (Some z))
       = Done (map Some (Keys.stops op l1 l2),
               LineCursor.mkCursor (Some (last (Keys.stops op l1 l2) z)))
       /\ Navigation.perform op fuel
            (LineCursor.mkCursor (Some (last (Keys.stops op l1 l2) z)))
          = Done (None,
                  LineCursor.mkCursor
                    (Some (last (Keys.stops op l1 l2) z))).
Proof.
  intros E. split.
  - pose proof (preorder_NoDup T) as Hnd. rewrite E in Hnd.
    assert (Hfwd : NoDup (z :: l2)) by (eapply NoDup_app_remove_l; eauto).
    assert (Hbwd : NoDup (z :: rev l1)).
    { apply NoDup_rev in Hnd. rewrite rev_app_distr in Hnd.
      cbn [rev] in Hnd. rewrite <- app_assoc in Hnd.
      eapply NoDup_app_remove_l; eauto. }
    assert (Hf : forall (f : pos -> bool) l,
               NoDup (z :: l) -> NoDup (z :: filter f l)).
    { intros f l Hl. apply NoDup_cons_iff in Hl. destruct Hl as [Hz Hl].
      constructor; [|now apply NoDup_filter].
      intros Hin. apply filter_In in Hin. now destruct Hin. }
    unfold Keys.stops. destruct op; apply Hf; assumption.
  - destruct (preorder_split T l1 z l2 E) as [Hb Ha].
    destruct (press_tree op (List.length (ahead op z)) z (le_n _))
      as [f0 Hf].
    exists f0. intros fuel Hle. specialize (Hf fuel Hle). cbv zeta in Hf.
    assert (Es : filter (fun m => Navigation.accepts op (Some m))
                        (ahead op z) = Keys.stops op l1 l2)
      by (unfold Keys.stops; destruct op; cbn [ahead];
          rewrite ?Ha, ?Hb; reflexivity).
    rewrite Es in Hf. exact Hf.
Qed.

(** X7 on the example workspace, with next() from the workspace node:
    the two statement blocks, then none. *)
Lemma pressing_a_key_stops_at_every_accepted_position_witness :
  preorder Example.workspace
  = [] ++ Example.at_ws
    :: [Example.at_stack; Example.at_repeat; Example.at_times;
        Example.at_number; Example.at_num; Example.at_cond]
  /\ Keys.stops Navigation.OpNext []
       [Example.at_stack; Example.at_repeat; Example.at_times;
        Example.at_number; Example.at_num; Example.at_cond]
     = [Example.at_repeat; Example.at_cond]
  /\ NoDup (Example.at_ws
            :: Keys.stops Navigation.OpNext []
                 [Example.at_stack; Example.at_repeat; Example.at_times;
                  Example.at_number; Example.at_num; Example.at_cond])
  /\ exists f0, forall fuel, f0 <= fuel ->
       Keys.press Navigation.OpNext fuel
         (List.length
            (Keys.stops Navigation.OpNext []
               [Example.at_stack; Example.at_repeat; Example.at_times;
                Example.at_number; Example.at_num; Example.at_cond]))
         (LineCursor.mkCursor (Some Example.at_ws))
       = Done (map Some
                 (Keys.stops Navigation.OpNext []
                    [Example.at_stack; Example.at_repeat; Example.at_times;
                     Example.at_number; Example.at_num; Example.at_cond]),
               LineCursor.mkCursor
                 (Some (last
                    (Keys.stops Navigation.OpNext []
                       [Example.at_stack; Example.at_repeat;
                        Example.at_times; Example.at_number;
                        Example.at_num; Example.at_cond])
                    Example.at_ws)))
       /\ Navigation.perform Navigation.OpNext fuel
            (LineCursor.mkCursor
               (Some (last
                  (Keys.stops Navigation.OpNext []
                     [Example.at_stack; Example.at_repeat;
                      Example.at_times; Example.at_number;
                      Example.at_num; Example.at_cond])
                  Example.at_ws)))
          = Done (None,
                  LineCursor.mkCursor
                    (Some (last
                       (Keys.stops Navigation.OpNext []
                          [Example.at_stack; Example.at_repeat;
                           Example.at_times; Example.at_number;
                           Example.at_num; Example.at_cond])
                       Example.at_ws))).
Proof.
  split; [reflexivity|]. split; [reflexivity|].
  exact (pressing_a_key_stops_at_every_accepted_position Navigation.OpNext
           Example.workspace []
           [Example.at_stack; Example.at_repeat; Example.at_times;
            Example.at_number; Example.at_num; Example.at_cond]
           Example.at_ws eq_refl).
Defined.


(** X9. On a tree, the result of a walk does not depend on the recursion
    budget: for every predicate that rejects null, whenever getNextNode_
    from a position [z] returns, it returns the first accepted position
    after [z] in the pre-order listing, or none if there is none, and
    getPreviousNode_ the nearest accepted position before [z]; and both
    return once the budget is large enough. *)
Theorem walks_return_the_first_accepted
  (isValid : option pos -> bool) (T : tree) (l1 l2 : list pos) (z : pos) :
  isValid None = false ->
  preorder T = l1 ++ z :: l2 ->
  (forall fuel r,
     LineCursor.getNextNode_ fuel (Some z) isValid = Done r ->
     r = find (fun m => isValid (Some m)) l2)
  /\ (forall fuel r,
        LineCursor.getPreviousNode_ fuel (Some z) isValid = Done r ->
        r = find (fun m => isValid (Some m)) (rev l1))
  /\ exists f0, forall fuel, f0 <= fuel ->
       LineCursor.getNextNode_ fuel (Some z) isValid
       = Done (find (fun m => isValid (Some m)) l2)
       /\ LineCursor.getPreviousNode_ fuel (Some z) isValid
          = Done (find (fun m => isValid (Some m)) (rev l1)).
Proof.
  intros Hnull E. destruct (preorder_split T l1 z l2 E) as [Hb Ha].
  destruct (getNextNode_tree isValid Hnull z) as [f1 H1].
  destruct (getPreviousNode_tree isValid z) as [f2 H2].
  rewrite Ha in H1. rewrite Hb in H2. repeat split.
  - intros fuel r Hr. apply (getNextNode_sound isValid Hnull) in Hr.
    apply (getNextNode_complete isValid Hnull) in Hr.
    destruct Hr as [f0 Hr].
    specialize (Hr (Nat.max f0 f1) ltac:(lia)).
    rewrite H1 in Hr by lia. now injection Hr as <-.
  - intros fuel r Hr. apply getPreviousNode_sound in Hr.
    apply getPreviousNode_complete in Hr. destruct Hr as [f0 Hr].
    specialize (Hr (Nat.max f0 f2) ltac:(lia)).
    rewrite H2 in Hr by lia. now injection Hr as <-.
  - exists (Nat.max f1 f2). intros fuel Hle. split.
    + apply H1. lia.
    + apply H2. lia.
Qed.

(** X9 from the value block of the example workspace, with the predicate
    of in and out. *)
Lemma walks_return_the_first_accepted_witness :
  LineCursor.validInNode_ (@None pos) = false
  /\ preorder Example.workspace
     = [Example.at_ws; Example.at_stack; Example.at_repeat;
        Example.at_times]
       ++ Example.at_number :: [Example.at_num; Example.at_cond]
  /\ (forall fuel r,
        LineCursor.getNextNode_ fuel (Some Example.at_number)
          LineCursor.validInNode_ = Done r ->
        r = find (fun m => LineCursor.validInNode_ (Some m))
              [Example.at_num; Example.at_cond])
  /\ (forall fuel r,
        LineCursor.getPreviousNode_ fuel (Some Example.at_number)
          LineCursor.validInNode_ = Done r ->
        r = find (fun m => LineCursor.validInNode_ (Some m))
              (rev [Example.at_ws; Example.at_stack; Example.at_repeat;
                    Example.at_times]))
  /\ exists f0, forall fuel, f0 <= fuel ->
       LineCursor.getNextNode_ fuel (Some Example.at_number)
         LineCursor.validInNode_
       = Done (find (fun m => LineCursor.validInNode_ (Some m))
                 [Example.at_num; Example.at_cond])
       /\ LineCursor.getPreviousNode_ fuel (Some Example.at_number)
            LineCursor.validInNode_
          = Done (find (fun m => LineCursor.validInNode_ (Some m))
                    (rev [Example.at_ws; Example.at_stack;
                          Example.at_repeat; Example.at_times])).
Proof.
  split; [reflexivity|]. split; [reflexivity|].
  exact (walks_return_the_first_accepted LineCursor.validInNode_
           Example.workspace
           [Example.at_ws; Example.at_stack; Example.at_repeat;
            Example.at_times]
           [Example.at_num; Example.at_cond]
           Example.at_number eq_refl eq_refl).
Defined.

(** X10. On a tree, findSiblingOrParent_ from a position [z] goes past
    the whole subtree of [z]: it returns the position that follows the
    subtree in the pre-order listing, and null when the subtree ends the
    listing. *)
Theorem findSiblingOrParent_passes_the_subtree
  (T : tree) (l1 l3 : list pos) (z : pos) :
  preorder T = l1 ++ locs (fst z) (snd z) ++ l3 ->
  exists f0, forall fuel, f0 <= fuel ->
    LineCursor.findSiblingOrParent_ fuel (Some z) = Done (hd_error l3).
Proof.
  destruct z as [[d ks] c]. cbn [fst snd]. rewrite locs_eq. intros E.
  cbn [app] in E. apply preorder_split in E. destruct E as [_ Ha].
  unfold after in Ha. cbn [fst snd data children] in Ha.
  apply app_inv_head in Ha.
  exists (2 + List.length c). intros fuel Hle.
  rewrite findSiblingOrParent_tree by lia. now rewrite Ha.
Qed.

(** X10 from the repeat block of the example workspace: past its field
    and its value block, to the if block. *)
Lemma findSiblingOrParent_passes_the_subtree_witness :
  preorder Example.workspace
  = [Example.at_ws; Example.at_stack]
    ++ locs (fst Example.at_repeat) (snd Example.at_repeat)
    ++ [Example.at_cond]
  /\ exists f0, forall fuel, f0 <= fuel ->
       LineCursor.findSiblingOrParent_ fuel (Some Example.at_repeat)
       = Done (hd_error [Example.at_cond]).
Proof.
  split; [reflexivity|].
  exact (findSiblingOrParent_passes_the_subtree Example.workspace
           [Example.at_ws; Example.at_stack] [Example.at_cond]
           Example.at_repeat eq_refl).
Defined.

End CallsInARow.

(* ================================================================== *)
(** * More on what the speaker says, and where it writes it *)

Section MoreAnnouncements.
Import ASTNode.
#[local] Open Scope string_scope.
Context {node : Type} `{ASTNode.Ops node}.
Variables Blockly_INPUT_VALUE Blockly_NEXT_STATEMENT : Z.

(** X11. The old node matters to the text only when the current node is a
    BLOCK that is not a conditional and whose source block has no
    surrounding parent: for every other current node, two calls with
    different old nodes (or none) end the same way, with the same text or
    the same error. *)
Theorem old_node_matters_only_to_top_level_blocks
  (oldNode oldNode' : option node) (curNode : node) :
  ~ (getType curNode = BLOCK /\ ~ Speaker.conditional curNode
     /\ Speaker.non_nested curNode) ->
  Speaker.nodeToText_ Blockly_INPUT_VALUE Blockly_NEXT_STATEMENT
    oldNode curNode
  = Speaker.nodeToText_ Blockly_INPUT_VALUE Blockly_NEXT_STATEMENT
      oldNode' curNode.
Proof.
  unfold Speaker.conditional, Speaker.non_nested, Speaker.nodeToText_.
  intros Hnot.
  destruct (types_eqb (getType curNode) BLOCK) eqn:Et; [|reflexivity].
  destruct (type_is_name (loc_type (getLocation curNode)) "controls_if")
    eqn:Ec; [reflexivity|].
  destruct (getSourceBlock curNode) as [sb|] eqn:Es; [|reflexivity].
  cbn [deref outcome_bind].
  destruct (getSurroundParent sb) as [sp|] eqn:Ep; [reflexivity|].
  destruct Hnot. split; [now apply types_eqb_eq|].
  split; [congruence|]. exists sb. auto.
Qed.

(** X12. The text of a BLOCK that is not a conditional, with source block
    [sb]: when [sb] has a surrounding parent, 'inside if. ' and then the
    text of the location, whatever the old node and whatever kind of block
    the parent is; when it has none, 'outside if. ' and then the text of
    the location if the source block of the old node has a surrounding
    parent, and the text of the location alone if it has none or no old
    node is given. *)
Theorem block_text (curNode : node) (sb : Block) :
  getType curNode = BLOCK ->
  ~ Speaker.conditional curNode ->
  getSourceBlock curNode = Some sb ->
  (getSurroundParent sb <> None ->
   forall oldNode,
     Speaker.nodeToText_ Blockly_INPUT_VALUE Blockly_NEXT_STATEMENT
       oldNode curNode
     = Ok ("inside if. " ++ loc_toString (getLocation curNode)))
  /\ (getSurroundParent sb = None ->
      (forall old osb,
         getSourceBlock old = Some osb ->
         getSurroundParent osb <> None ->
         Speaker.nodeToText_ Blockly_INPUT_VALUE Blockly_NEXT_STATEMENT
           (Some old) curNode
         = Ok ("outside if. " ++ loc_toString (getLocation curNode)))
      /\ (forall old osb,
            getSourceBlock old = Some osb ->
            getSurroundParent osb = None ->
            Speaker.nodeToText_ Blockly_INPUT_VALUE Blockly_NEXT_STATEMENT
              (Some old) curNode
            = Ok (loc_toString (getLocation curNode)))
      /\ Speaker.nodeToText_ Blockly_INPUT_VALUE Blockly_NEXT_STATEMENT
           None curNode
         = Ok (loc_toString (getLocation curNode))).
Proof.
  unfold Speaker.conditional, Speaker.nodeToText_. intros -> Hc ->.
  cbn [types_eqb deref outcome_bind].
  destruct (type_is_name (loc_type (getLocation curNode)) "controls_if");
    [now destruct Hc|].
  split.
  - intros Hp oldNode. destruct (getSurroundParent sb); [|now destruct Hp].
    reflexivity.
  - intros ->. cbn [Speaker.truthy]. repeat split.
    + intros old osb -> Hp. cbn [deref outcome_bind].
      destruct (getSurroundParent osb); [|now destruct Hp]. reflexivity.
    + intros old osb -> Hp. cbn [deref outcome_bind]. now rewrite Hp.
Qed.

(** X13. sayNode computes the text before it looks at the element: an
    error of nodeToText_ is thrown even when no element is given. When
    nodeToText_ returns a text, sayNode with no element writes nothing,
    and with an element it leaves the text as the value of the aria-label
    attribute and every other attribute as it was. *)
Theorem sayNode_labels_the_element
  (oldNode : option node) (curNode : node) :
  (forall err,
     Speaker.nodeToText_ Blockly_INPUT_VALUE Blockly_NEXT_STATEMENT
       oldNode curNode = Throw err ->
     forall element,
       Speaker.sayNode Blockly_INPUT_VALUE Blockly_NEXT_STATEMENT
         oldNode curNode element = Throw err)
  /\ (forall text,
        Speaker.nodeToText_ Blockly_INPUT_VALUE Blockly_NEXT_STATEMENT
          oldNode curNode = Ok text ->
        Speaker.sayNode Blockly_INPUT_VALUE Blockly_NEXT_STATEMENT
          oldNode curNode None = Ok None
        /\ forall e,
             exists e',
               Speaker.sayNode Blockly_INPUT_VALUE Blockly_NEXT_STATEMENT
                 oldNode curNode (Some e) = Ok (Some e')
               /\ Dom.getAttribute e' "aria-label" = Some text
               /\ forall name,
                    name <> "aria-label" ->
                    Dom.getAttribute e' name = Dom.getAttribute e name).
Proof.
  unfold Speaker.sayNode. split.
  - intros err ->. reflexivity.
  - intros text ->. cbn [outcome_bind Speaker.speakOut].
    split; [reflexivity|]. intros e.
    exists (Speaker.setAttribute e "aria-label" text).
    split; [reflexivity|]. unfold Speaker.setAttribute, Dom.getAttribute.
    split.
    + cbn [find fst snd]. now rewrite String.eqb_refl.
    + intros name Hne. cbn [find fst].
      destruct (String.eqb "aria-label" name) eqn:En.
      * apply String.eqb_eq in En. congruence.
      * induction e as [|[k v] e IH]; [reflexivity|].
        cbn [filter find fst].
        destruct (String.eqb k "aria-label") eqn:Ek; cbn [negb].
        -- apply String.eqb_eq in Ek. subst k. rewrite En. exact IH.
        -- cbn [find fst]. destruct (String.eqb k name); [reflexivity|].
           exact IH.
Qed.

End MoreAnnouncements.

Section MoreOnTheExample.
Import ASTNode Tree.
#[local] Open Scope string_scope.

(** X11 on the first field of the example workspace, coming from nowhere
    or from the workspace node. *)
Lemma old_node_matters_only_to_top_level_blocks_witness :
  ~ (getType Example.at_times = BLOCK
     /\ ~ Speaker.conditional Example.at_times
     /\ Speaker.non_nested Example.at_times)
  /\ Speaker.nodeToText_ 1 3 None Example.at_times
     = Speaker.nodeToText_ 1 3 (Some Example.at_ws) Example.at_times.
Proof.
  assert (Hnot : ~ (getType Example.at_times = BLOCK
                    /\ ~ Speaker.conditional Example.at_times
                    /\ Speaker.non_nested Example.at_times))
    by (intros [E _]; discriminate E).
  split; [exact Hnot|].
  exact (old_node_matters_only_to_top_level_blocks 1 3 None
           (Some Example.at_ws) Example.at_times Hnot).
Defined.

(** X12 on the repeat block of the example workspace, a top-level
    block. *)
Lemma block_text_witness :
  getType Example.at_repeat = BLOCK
  /\ ~ Speaker.conditional Example.at_repeat
  /\ getSourceBlock Example.at_repeat = Some Example.repeat_block
  /\ Speaker.nodeToText_ 1 3 None Example.at_repeat = Ok "repeat 10 times".
Proof.
  assert (Hc : ~ Speaker.conditional Example.at_repeat)
    by (intros E; discriminate E).
  split; [reflexivity|]. split; [exact Hc|]. split; [reflexivity|].
  exact (proj2 (proj2 (proj2
           (block_text 1 3 Example.at_repeat Example.repeat_block
              eq_refl Hc eq_refl) eq_refl))).
Defined.

End MoreOnTheExample.

(* ================================================================== *)
(** * The notch *)

Section NotchPath.
#[local] Open Scope Z_scope.

(** X14. The three points of the main path of the notch, drawn in
    direction [dir] (1 for the left path, -1 for the right one), add up
    to [dir] times the width of the notch horizontally and to nothing
    vertically: the two outer parts and the inner part fill the width
    exactly. The points of the opposite direction are their mirror
    image. *)
Theorem notch_path_spans_the_notch (dir : Z) :
  Notch.displacement (Notch.makeMainPath dir)
  = (dir * Notch.NOTCH_WIDTH, 0)
  /\ Notch.makeMainPath (- dir)
     = map (fun p => (- fst p, snd p)) (Notch.makeMainPath dir).
Proof.
  unfold Notch.displacement, Notch.makeMainPath.
  change Notch.outerWidth with 6. change Notch.innerWidth with 3.
  change Notch.height with 4. change Notch.NOTCH_WIDTH with 15.
  cbn [fold_left map fst snd]. split.
  - f_equal; lia.
  - repeat f_equal; lia.
Qed.

End NotchPath.
